(** * folly::Baton — a single-handoff synchronization primitive

    Shallow embedding of [folly/synchronization/Baton.h].

    The Baton is one atomic 32-bit word, [state_], touched by a poster
    thread ([post]) and a waiter thread ([wait], [try_wait_for],
    [try_wait_until], [timed_wait]).  Every access to [state_] in the source
    is one atomic operation; the embedding makes each of them one step of a
    per-thread step function, and a schedule interleaves the steps of the
    two threads.  Since [state_] is the only shared location, coherence
    makes its accesses totally ordered, so interleaving the atomic
    operations loses no behaviour of the value of [state_].

    Acquire/release ordering is modelled with views: the word carries a
    flag telling whether the store that wrote it published the writer's
    earlier plain writes, and an acquire load joins that flag into the
    reader's view. *)

From Stdlib Require Import ZArith List Bool Lia.
Import ListNotations.
Open Scope Z_scope.

Module Baton.

(** ** The state word *)

(** [enum State : uint32_t] *)
Inductive State : Set :=
| INIT
| EARLY_DELIVERY
| WAITING
| LATE_DELIVERY
| TIMED_OUT.

Definition State_code (s : State) : Z :=
  match s with
  | INIT => 0
  | EARLY_DELIVERY => 1
  | WAITING => 2
  | LATE_DELIVERY => 3
  | TIMED_OUT => 4
  end.

Definition State_eqb (a b : State) : bool := State_code a =? State_code b.

Inductive memory_order : Set :=
| memory_order_relaxed
| memory_order_acquire
| memory_order_release.

Definition is_acquire (mo : memory_order) : bool :=
  match mo with memory_order_acquire => true | _ => false end.

Definition is_release (mo : memory_order) : bool :=
  match mo with memory_order_release => true | _ => false end.

(** [detail::Futex<Atom> state_]: the value, and whether the store that
    wrote it carries the poster's earlier writes (the message view). *)
Record Futex : Set := mkFutex { value : State; msg : bool }.

(** A thread's view is one flag: does it see the payload the poster wrote
    before calling [post]? *)
Definition View := bool.

Definition load (mo : memory_order) (a : Futex) (view : View) : State * View :=
  (value a, if is_acquire mo then view || msg a else view).

Definition store (v : State) (mo : memory_order) (view : View) : Futex :=
  mkFutex v (is_release mo && view).

(** [compare_exchange_strong(expected, desired, success, failure)]: returns
    the success flag, the value left in [expected], the word and the
    caller's view.  A successful exchange is a read-modify-write, so it
    continues the release sequence of the store it read from. *)
Definition compare_exchange_strong
    (a : Futex) (expected desired : State) (success failure : memory_order)
    (view : View) : bool * State * Futex * View :=
  if State_eqb (value a) expected
  then (true, expected,
        mkFutex desired ((is_release success && view) || msg a),
        if is_acquire success then view || msg a else view)
  else (false, value a, a,
        if is_acquire failure then view || msg a else view).

(** ** Collaborators that are not part of Baton.h *)

(** [std::chrono::time_point<Clock, Duration>::max()] for a signed 64-bit
    tick count. *)
Definition time_point_max : Z := 2 ^ 63 - 1.

(** Two's-complement wrap-around of a signed 64-bit tick count: what the
    [int64_t] arithmetic of [std::chrono] leaves when a sum or a difference
    of tick counts goes out of range. *)
Definition int64_wrap (z : Z) : Z := (z + 2 ^ 63) mod 2 ^ 64 - 2 ^ 63.

(** [std::chrono::duration_cast<std::chrono::milliseconds>] of a count of
    ticks of [steady_clock], which are nanoseconds: the quotient by a
    million, truncated toward zero. *)
Definition to_milliseconds (ticks : Z) : Z := Z.quot ticks 1000000.

Arguments int64_wrap : simpl never.
Arguments to_milliseconds : simpl never.

(** Modelled from the spec: [folly/synchronization/WaitOptions.h] is not
    among the sources; the slow path reads [logging_enabled()] and hands
    the options to the spin helper, which reads [spin_max()]. *)
Record WaitOptions : Set := mkWaitOptions {
  spin_max : Z;
  logging_enabled : bool
}.

(** [detail::spin_result] *)
Inductive spin_result : Set := spin_success | spin_timeout | spin_advance.

(** Modelled from the spec: the park facility reports woken or timed out,
    and a spurious return counts as woken. *)
Inductive FutexResult : Set := AWOKEN | TIMEDOUT.

(** Modelled from the spec: the spin helper [detail::spin_pause_until]
    ("spin_until(deadline, predicate) -> {success, timeout, advance}")
    polls the predicate and returns [success] when a poll answers true;
    between polls it may give up with [timeout] or [advance].  One move of
    the helper is one such decision. *)
Inductive SpinMove : Set := Poll | Expire | Advance.

(** Modelled from the spec: the back-off [detail::spin_yield_until] of the
    spin-only version ("continue spinning with a yield-the-processor
    back-off until ready() or deadline; return accordingly") polls the
    predicate and yields the processor; it ends with [success] or
    [timeout] only. *)
Inductive YieldMove : Set := YieldPoll | YieldExpire.

(** What the environment answers at one step of the waiter: the clock, the
    next move of [spin_pause_until], the next move of [spin_yield_until],
    and what the park call reports. *)
Record Oracle : Set := mkOracle {
  now : Z;
  pause : SpinMove;
  yield : YieldMove;
  futex : FutexResult
}.

(** ** Observable effects *)

Inductive Thread : Set := Poster | Waiter.

Inductive Event : Set :=
| EvStore (t : Thread) (old new : State) (mo : memory_order)
| EvExchange (t : Thread) (old new : State) (mo : memory_order)
| EvFutexWake
| EvFutexWait (expected : State) (deadline : Z)
| EvLogBlocking (milliseconds : Z).

(** ** [ready] and [try_wait] *)

Definition ready_state (s : State) : bool :=
  State_eqb s EARLY_DELIVERY || State_eqb s LATE_DELIVERY.

(** [ready()]: the answer and the caller's view after the acquire load. *)
Definition ready (a : Futex) (view : View) : bool * View :=
  let '(s, view') := load memory_order_acquire a view in
  (ready_state s, view').

(** [try_wait()]: [None] when the assertion fails. *)
Definition try_wait (a : Futex) (view : View) : option bool * View :=
  let '(s, view') := load memory_order_acquire a view in
  if State_eqb s INIT || State_eqb s EARLY_DELIVERY
  then (Some (State_eqb s EARLY_DELIVERY), view')
  else (None, view').

(** [reset()]: [None] when the assertion fails. *)
Definition reset (a : Futex) (view : View) : option Futex :=
  let '(s, _) := load memory_order_relaxed a view in
  if State_eqb s WAITING then None
  else Some (store INIT memory_order_relaxed view).

(** ** The poster thread: [post()] *)

(** Where the poster stands between two atomic operations of [post]. *)
Inductive PostPc : Set :=
| P_idle          (* outside [post] *)
| P_store_early   (* spin-only version: assertion passed, store pending *)
| P_cas           (* [before == INIT] was loaded, exchange pending *)
| P_store_late    (* [before == WAITING], store pending *)
| P_wake          (* LATE_DELIVERY stored, [futexWake] pending *)
| P_abort.        (* an assertion failed *)

Record PosterState : Set := mkPoster {
  ppc : PostPc;
  posts_left : nat;   (* calls to [post] still to make *)
  posts_done : nat;   (* calls to [post] that returned *)
  pview : View
}.

Definition post_return (p : PosterState) : PosterState :=
  mkPoster P_idle (posts_left p) (S (posts_done p)) (pview p).

Definition post_goto (pc : PostPc) (p : PosterState) : PosterState :=
  mkPoster pc (posts_left p) (posts_done p) (pview p).

(** The assertion of the spin-only version:
    [((1 << s) & ((1 << INIT) | (1 << EARLY_DELIVERY))) != 0]. *)
Definition spin_only_assert (s : State) : bool :=
  negb (Z.land (Z.shiftl 1 (State_code s))
               (Z.lor (Z.shiftl 1 (State_code INIT))
                      (Z.shiftl 1 (State_code EARLY_DELIVERY))) =? 0).

(** The tail of the may-block version once [before] is settled and the
    exchange was not taken or failed. *)
Definition post_after_before (before : State) (p : PosterState) : PosterState :=
  if negb (State_eqb before WAITING || State_eqb before TIMED_OUT)
  then post_goto P_abort p
  else if State_eqb before TIMED_OUT then post_return p
  else post_goto P_store_late p.

(** One atomic operation of the poster.  [P_idle] is the entry of [post]
    (lines 149-165): the spin-only version asserts on a relaxed load, the
    may-block version loads [before] with acquire ordering, asserts, and
    goes to the exchange only when [before == INIT].  [P_cas] is the
    exchange of lines 166-172 and, when it fails, the tail of lines
    174-180 on the value it left in [before].  [P_store_early] is line 155,
    [P_store_late] line 181, [P_wake] line 182.  A failed assertion stops
    the thread. *)
Definition post_step (MayBlock : bool) (a : Futex) (p : PosterState)
  : Futex * PosterState * list Event :=
  match ppc p with
  | P_idle =>
      match posts_left p with
      | O => (a, p, [])
      | S n =>
          let p := mkPoster P_idle n (posts_done p) (pview p) in
          if negb MayBlock then
            let '(s, _) := load memory_order_relaxed a (pview p) in
            if spin_only_assert s
            then (a, post_goto P_store_early p, [])
            else (a, post_goto P_abort p, [])
          else
            let '(before, v) := load memory_order_acquire a (pview p) in
            let p := mkPoster P_idle n (posts_done p) v in
            if negb (State_eqb before INIT || State_eqb before WAITING
                     || State_eqb before TIMED_OUT)
            then (a, post_goto P_abort p, [])
            else if State_eqb before INIT
            then (a, post_goto P_cas p, [])
            else (a, post_after_before before p, [])
      end
  | P_store_early =>
      (store EARLY_DELIVERY memory_order_release (pview p),
       post_return p,
       [EvStore Poster (value a) EARLY_DELIVERY memory_order_release])
  | P_cas =>
      let '(ok, before, a', v) :=
        compare_exchange_strong a INIT EARLY_DELIVERY
          memory_order_release memory_order_relaxed (pview p) in
      let p := mkPoster (ppc p) (posts_left p) (posts_done p) v in
      if ok
      then (a', post_return p,
            [EvExchange Poster INIT EARLY_DELIVERY memory_order_release])
      else (a', post_after_before before p, [])
  | P_store_late =>
      (store LATE_DELIVERY memory_order_release (pview p),
       post_goto P_wake p,
       [EvStore Poster (value a) LATE_DELIVERY memory_order_release])
  | P_wake => (a, post_return p, [EvFutexWake])
  | P_abort => (a, p, [])
  end.

(** ** The waiter thread: [wait], [try_wait_for], [try_wait_until],
       [timed_wait] and the shared [tryWaitSlow] *)

(** A call of the wait family with its arguments. *)
Inductive Call : Set :=
| wait (opt : WaitOptions)
| try_wait_for (timeout : Z) (opt : WaitOptions)
| try_wait_until (deadline : Z) (opt : WaitOptions).

(** What the caller invokes: one of the three calls, or one of the two
    deprecated [timed_wait] overloads. *)
Inductive Entry : Set :=
| direct (c : Call)
| timed_wait_for (timeout : Z)          (* [timed_wait(duration)] *)
| timed_wait_until (deadline : Z).      (* [timed_wait(time_point)] *)

(** The call whose body an entry runs.  [wait_options] is the value of the
    static [wait_options()], the default argument of [try_wait_for] and
    [try_wait_until]. *)
Definition forward (wait_options : WaitOptions) (e : Entry) : Call :=
  match e with
  | direct c => c
  | timed_wait_for timeout => try_wait_for timeout wait_options
  | timed_wait_until deadline => try_wait_until deadline wait_options
  end.

(** What a call hands to [tryWaitSlow] once its [try_wait()] answered
    false: the deadline and the options. *)
Definition slow_args (c : Call) (o : Oracle) : Z * WaitOptions :=
  match c with
  | wait opt => (time_point_max, opt)
  | try_wait_for timeout opt => (int64_wrap (now o + timeout), opt)
  | try_wait_until deadline opt => (deadline, opt)
  end.

(** What the call gives back to its caller from the answer of [try_wait()]
    or [tryWaitSlow]: [wait] is [void]. *)
Definition return_value (c : Call) (r : bool) : option bool :=
  match c with
  | wait _ => None
  | _ => Some r
  end.

(** Where the waiter stands between two atomic operations. *)
Inductive WaitPc : Set :=
| W_idle          (* outside any call *)
| W_slow          (* entering [tryWaitSlow] *)
| W_spin_pause    (* inside [spin_pause_until] *)
| W_spin_yield    (* inside [spin_yield_until] *)
| W_cas           (* exchange INIT -> WAITING pending *)
| W_park          (* top of the loop, [futexWaitUntil] pending *)
| W_timed_out     (* park reported TIMEDOUT, store pending *)
| W_reload        (* park returned, acquire load pending *)
| W_abort.        (* an assertion failed *)

Record WaiterState : Set := mkWaiter {
  wpc : WaitPc;
  deadline : Z;
  opt : WaitOptions;
  wview : View;
  pending : list Entry;            (* head: the entry being run *)
  finished : list (Entry * bool)   (* entries that returned, latest first,
                                      with the answer they computed *)
}.

Definition wait_goto (pc : WaitPc) (w : WaiterState) : WaiterState :=
  mkWaiter pc (deadline w) (opt w) (wview w) (pending w) (finished w).

Definition wait_see (v : View) (w : WaiterState) : WaiterState :=
  mkWaiter (wpc w) (deadline w) (opt w) v (pending w) (finished w).

Definition wait_return (r : bool) (w : WaiterState) : WaiterState :=
  match pending w with
  | [] => wait_goto W_idle w
  | e :: rest =>
      mkWaiter W_idle (deadline w) (opt w) (wview w) rest ((e, r) :: finished w)
  end.

Definition enter_slow (args : Z * WaitOptions) (w : WaiterState) : WaiterState :=
  mkWaiter W_slow (fst args) (snd args) (wview w) (pending w) (finished w).

(** One move of [spin_pause_until] polling [ready()]: [None] while it
    keeps spinning. *)
Definition spin_pause_until (m : SpinMove) (a : Futex) (view : View)
  : option spin_result * View :=
  match m with
  | Poll =>
      let '(r, v) := ready a view in
      (if r then Some spin_success else None, v)
  | Expire => (Some spin_timeout, view)
  | Advance => (Some spin_advance, view)
  end.

(** One move of [spin_yield_until] polling [ready()]. *)
Definition spin_yield_until (m : YieldMove) (a : Futex) (view : View)
  : option spin_result * View :=
  match m with
  | YieldPoll =>
      let '(r, v) := ready a view in
      (if r then Some spin_success else None, v)
  | YieldExpire => (Some spin_timeout, view)
  end.

(** One atomic operation of the waiter, under the answers [o] of its
    environment.  [W_idle] is the entry of a call: [try_wait()] and, when
    it answers false, the deadline handed to [tryWaitSlow] (lines 199-206,
    245-251, 271-276).  [W_slow] is the logging of lines 311-315 (the time left, in
    milliseconds),
    [W_spin_pause] the switch of lines 317-326, [W_spin_yield] the switch
    of lines 328-337, [W_cas] the exchange of lines 359-373, [W_park] the
    park call and the test of its result (lines 376-380), [W_timed_out]
    the store of line 381, [W_reload] lines 405-413.  A failed assertion
    stops the thread. *)
Definition wait_step (MayBlock : bool) (wait_options : WaitOptions)
    (a : Futex) (w : WaiterState) (o : Oracle)
  : Futex * WaiterState * list Event :=
  match wpc w with
  | W_idle =>
      match pending w with
      | [] => (a, w, [])
      | e :: _ =>
          let c := forward wait_options e in
          let '(r, v) := try_wait a (wview w) in
          let w := wait_see v w in
          match r with
          | None => (a, wait_goto W_abort w, [])
          | Some true => (a, wait_return true w, [])
          | Some false => (a, enter_slow (slow_args c o) w, [])
          end
      end
  | W_slow =>
      (a, wait_goto W_spin_pause w,
       if logging_enabled (opt w)
       then [EvLogBlocking
               (to_milliseconds (int64_wrap (deadline w - now o)))]
       else [])
  | W_spin_pause =>
      let '(r, v) := spin_pause_until (pause o) a (wview w) in
      let w := wait_see v w in
      match r with
      | None => (a, w, [])
      | Some spin_success => (a, wait_return true w, [])
      | Some spin_timeout => (a, wait_return false w, [])
      | Some spin_advance =>
          if negb MayBlock
          then (a, wait_goto W_spin_yield w, [])
          else (a, wait_goto W_cas w, [])
      end
  | W_spin_yield =>
      let '(r, v) := spin_yield_until (yield o) a (wview w) in
      let w := wait_see v w in
      match r with
      | None => (a, w, [])
      | Some spin_success => (a, wait_return true w, [])
      | Some spin_timeout => (a, wait_return false w, [])
      | Some spin_advance => (a, wait_goto W_cas w, [])
      end
  | W_cas =>
      let '(ok, expected, a', v) :=
        compare_exchange_strong a INIT WAITING
          memory_order_relaxed memory_order_acquire (wview w) in
      let w := wait_see v w in
      if negb ok
      then if State_eqb expected EARLY_DELIVERY
           then (a', wait_return true w, [])
           else (a', wait_goto W_abort w, [])
      else (a', wait_goto W_park w,
            [EvExchange Waiter INIT WAITING memory_order_relaxed])
  | W_park =>
      match futex o with
      | TIMEDOUT =>
          if deadline w =? time_point_max
          then (a, wait_goto W_abort w, [EvFutexWait WAITING (deadline w)])
          else (a, wait_goto W_timed_out w, [EvFutexWait WAITING (deadline w)])
      | AWOKEN => (a, wait_goto W_reload w, [EvFutexWait WAITING (deadline w)])
      end
  | W_timed_out =>
      (store TIMED_OUT memory_order_relaxed (wview w),
       wait_return false w,
       [EvStore Waiter (value a) TIMED_OUT memory_order_relaxed])
  | W_reload =>
      let '(s, v) := load memory_order_acquire a (wview w) in
      let w := wait_see v w in
      if negb (State_eqb s WAITING || State_eqb s LATE_DELIVERY)
      then (a, wait_goto W_abort w, [])
      else if State_eqb s LATE_DELIVERY
      then (a, wait_return true w, [])
      else (a, wait_goto W_park w, [])
  | W_abort => (a, w, [])
  end.

(** ** The two threads on one Baton *)

Record Config : Set := mkConfig {
  state_ : Futex;
  poster : PosterState;
  waiter : WaiterState;
  trace : list Event      (* effects so far, oldest first *)
}.

(** Who moves next. *)
Inductive Tick : Set :=
| PosterMoves
| WaiterMoves (o : Oracle).

Definition step (MayBlock : bool) (wait_options : WaitOptions)
    (c : Config) (t : Tick) : Config :=
  match t with
  | PosterMoves =>
      let '(a, p, evs) := post_step MayBlock (state_ c) (poster c) in
      mkConfig a p (waiter c) (trace c ++ evs)
  | WaiterMoves o =>
      let '(a, w, evs) :=
        wait_step MayBlock wait_options (state_ c) (waiter c) o in
      mkConfig a (poster c) w (trace c ++ evs)
  end.

(** The effects of one tick. *)
Definition step_events (MayBlock : bool) (wait_options : WaitOptions)
    (c : Config) (t : Tick) : list Event :=
  match t with
  | PosterMoves => snd (post_step MayBlock (state_ c) (poster c))
  | WaiterMoves o =>
      snd (wait_step MayBlock wait_options (state_ c) (waiter c) o)
  end.

Definition run (MayBlock : bool) (wait_options : WaitOptions)
    (c : Config) (sched : list Tick) : Config :=
  fold_left (step MayBlock wait_options) sched c.

(** A fresh Baton ([state_(INIT)]) with a poster that wrote its payload and
    will call [post] [posts] times, and a waiter that does not see the
    payload yet and will make the calls [entries] in turn. *)
Definition fresh (posts : nat) (entries : list Entry) : Config :=
  mkConfig (mkFutex INIT false)
           (mkPoster P_idle posts 0 true)
           (mkWaiter W_idle 0 (mkWaitOptions 0 false) false entries [])
           [].

(** ** Schedules *)

(** The waiter moves, with a clock reading and one answer for each
    collaborator. *)
Definition W (t : Z) (p : SpinMove) (y : YieldMove) (f : FutexResult) : Tick :=
  WaiterMoves (mkOracle t p y f).

(** The poster alone for [n] steps. *)
Definition poster_runs (n : nat) : list Tick := repeat PosterMoves n.

(** The park call never reports that the deadline passed. *)
Definition park_never_times_out (t : Tick) : Prop :=
  match t with
  | WaiterMoves o => futex o = AWOKEN
  | PosterMoves => True
  end.

(** The spin helpers never report that the deadline passed. *)
Definition spin_never_times_out (t : Tick) : Prop :=
  match t with
  | WaiterMoves o => pause o <> Expire /\ yield o <> YieldExpire
  | PosterMoves => True
  end.

(** No collaborator ever reports that the deadline passed. *)
Definition never_times_out (t : Tick) : Prop :=
  park_never_times_out t /\ spin_never_times_out t.

(** ** The edges of the state word *)





(** ** Invariants *)

Definition in_states (s : State) (l : list State) : bool :=
  existsb (State_eqb s) l.

(** The waiter is between its exchange and its return from the loop. *)
Definition in_loop (pc : WaitPc) : bool :=
  match pc with W_park | W_timed_out | W_reload => true | _ => false end.

(** The waiter is inside [tryWaitSlow] before its exchange. *)
Definition before_exchange (pc : WaitPc) : bool :=
  match pc with
  | W_slow | W_spin_pause | W_spin_yield | W_cas => true
  | _ => false
  end.

Definition ppc_eqb (a b : PostPc) : bool :=
  match a, b with
  | P_idle, P_idle | P_store_early, P_store_early | P_cas, P_cas
  | P_store_late, P_store_late | P_wake, P_wake | P_abort, P_abort => true
  | _, _ => false
  end.

(** The view invariant: the poster sees its payload; a delivered state was
    written by a release operation of the poster, so it carries the
    payload; and a waiter that was told "posted" sees the payload. *)
Definition succeeded (w : WaiterState) : bool := existsb snd (finished w).

Definition view_inv (c : Config) : Prop :=
  pview (poster c) = true
  /\ (ready_state (value (state_ c)) = true -> msg (state_ c) = true)
  /\ (succeeded (waiter c) = true -> wview (waiter c) = true).

(** The invariant of the may-block version. *)
Definition blocking_inv (c : Config) : bool :=
  let v := value (state_ c) in
  implb (in_loop (wpc (waiter c))) (in_states v [WAITING; LATE_DELIVERY])
  && implb (before_exchange (wpc (waiter c)))
           (in_states v [INIT; EARLY_DELIVERY])
  && implb (ppc_eqb (ppc (poster c)) P_store_late)
           (in_states v [WAITING; TIMED_OUT])
  && negb (ppc_eqb (ppc (poster c)) P_store_early).

(** The events a spin-only Baton may leave in the trace. *)
Definition spin_only_event (ev : Event) : bool :=
  match ev with
  | EvStore Poster _ EARLY_DELIVERY memory_order_release => true
  | EvLogBlocking _ => true
  | _ => false
  end.

(** The invariant of the spin-only version. *)
Definition spin_only_state (c : Config) : bool :=
  in_states (value (state_ c)) [INIT; EARLY_DELIVERY]
  && negb (in_loop (wpc (waiter c)))
  && negb (match wpc (waiter c) with W_cas => true | _ => false end)
  && match ppc (poster c) with
     | P_idle | P_store_early | P_abort => true
     | _ => false
     end.

Definition spin_only_inv (c : Config) : Prop :=
  spin_only_state c = true /\ forallb spin_only_event (trace c) = true.

(** Inside a call the entry being run heads the pending list. *)
Definition in_call_inv (c : Config) : bool :=
  match wpc (waiter c), pending (waiter c) with
  | W_idle, _ => true
  | _, [] => false
  | _, _ :: _ => true
  end.


(** Once a [post] returned the state is delivered or timed out. *)
Definition has_posted (p : PosterState) : bool :=
  negb (Nat.eqb (posts_done p) 0).

Definition posted_inv (c : Config) : bool :=
  let v := value (state_ c) in
  implb (has_posted (poster c))
        (in_states v [EARLY_DELIVERY; LATE_DELIVERY; TIMED_OUT])
  && implb (ppc_eqb (ppc (poster c)) P_wake)
           (in_states v [LATE_DELIVERY; TIMED_OUT]).

(** *** When no deadline ever passes *)


(** TIMED_OUT is neither stored nor about to be. *)
Definition no_timeout_state (c : Config) : bool :=
  negb (State_eqb (value (state_ c)) TIMED_OUT)
  && negb (match wpc (waiter c) with W_timed_out => true | _ => false end).

(** Every call that returned answered true. *)
Definition all_answers_true (c : Config) : bool :=
  forallb snd (finished (waiter c)).


(** The waiter only calls [wait], and inside [tryWaitSlow] its deadline is
    the maximal time point. *)
Definition in_slow_path (pc : WaitPc) : bool :=
  match pc with W_idle | W_abort => false | _ => true end.





(** An event that stores WAITING or calls the park facility. *)
Definition parks_or_waits (ev : Event) : bool :=
  match ev with
  | EvStore _ _ WAITING _ => true
  | EvExchange _ _ WAITING _ => true
  | EvFutexWake => true
  | EvFutexWait _ _ => true
  | _ => false
  end.

(** An event that writes the state word. *)
Definition writes_state (ev : Event) : bool :=
  match ev with
  | EvStore _ _ _ _ => true
  | EvExchange _ _ _ _ => true
  | _ => false
  end.

(** ** Scenarios *)

Definition opts : WaitOptions := mkWaitOptions 2000 true.

(** A bounded wait spins, advances, exchanges INIT for WAITING and parks;
    the poster loads WAITING; the park times out and the waiter stores
    TIMED_OUT and returns false.  The poster's store is still pending. *)
Definition timeout_races_post : list Tick :=
  [ W 100 Poll YieldPoll AWOKEN;      (* try_wait: not posted *)
    W 100 Poll YieldPoll AWOKEN;      (* tryWaitSlow: logging *)
    W 100 Advance YieldPoll AWOKEN;   (* spin_pause_until: advance *)
    W 100 Poll YieldPoll AWOKEN;      (* exchange INIT -> WAITING *)
    PosterMoves;                 (* post: before == WAITING *)
    W 600 Poll YieldPoll TIMEDOUT;    (* futexWaitUntil: TIMEDOUT *)
    W 600 Poll YieldPoll AWOKEN ].    (* store TIMED_OUT, return false *)

(** A bounded wait times out while parked, alone; then [post] runs. *)
Definition timeout_then_post : list Tick :=
  [ W 100 Poll YieldPoll AWOKEN;
    W 100 Poll YieldPoll AWOKEN;
    W 100 Advance YieldPoll AWOKEN;
    W 100 Poll YieldPoll AWOKEN;
    W 600 Poll YieldPoll TIMEDOUT;
    W 600 Poll YieldPoll AWOKEN;
    PosterMoves ].

(** A spin-only bounded wait: the pause helper advances, the yield
    back-off polls twice, [post] lands, and the next poll succeeds. *)
Definition spin_only_handoff : list Tick :=
  [ W 100 Poll YieldPoll AWOKEN;      (* try_wait: not posted *)
    W 100 Poll YieldPoll AWOKEN;      (* tryWaitSlow: logging *)
    W 100 Advance YieldPoll AWOKEN;   (* spin_pause_until: advance *)
    W 110 Poll YieldPoll AWOKEN;      (* spin_yield_until: not ready *)
    W 120 Poll YieldPoll AWOKEN;
    PosterMoves; PosterMoves;         (* post: assertion, store *)
    W 130 Poll YieldPoll AWOKEN ].    (* spin_yield_until: success *)

(** [post] first, then [wait]: the fast path. *)
Definition post_then_wait : list Tick :=
  [ PosterMoves; PosterMoves; W 100 Poll YieldPoll AWOKEN ].

(** The waiter reaches its exchange, then [post] runs to the end. *)
Definition post_lands_before_exchange : list Tick :=
  [ W 100 Poll YieldPoll AWOKEN;
    W 100 Poll YieldPoll AWOKEN;
    W 100 Advance YieldPoll AWOKEN;
    PosterMoves; PosterMoves ].



(** The park call returns without a timeout, whatever else [o] answers. *)
Definition woken (o : Oracle) : Oracle :=
  mkOracle (now o) (pause o) (yield o) AWOKEN.




(** The waiter alone: polls that the environment lets go on, then a last
    move of the helper. *)
Definition polls_then (polls : list Oracle) (last : Oracle) : list Tick :=
  map WaiterMoves polls ++ [WaiterMoves last].

(** The waiter spinning inside a helper, at [pc]. *)
Definition spinning (pc : WaitPc) (p : PosterState) (d : Z)
    (op : WaitOptions) (v : View) (pend : list Entry)
    (fin : list (Entry * bool)) (tr : list Event) : Config :=
  mkConfig (mkFutex INIT false) p (mkWaiter pc d op v pend fin) tr.

(** The log entry of [tryWaitSlow]. *)
Definition log_of (op : WaitOptions) (d t : Z) : list Event :=
  if logging_enabled op
  then [EvLogBlocking (to_milliseconds (int64_wrap (d - t)))] else [].

(** The calls that take a deadline or a timeout. *)
Definition is_bounded (c : Call) : bool :=
  match c with
  | wait _ => false
  | try_wait_for _ _ | try_wait_until _ _ => true
  end.

(** The one call [e] on a fresh Baton returned false and left no trace on
    the state word: the word is as constructed, nothing was stored or
    exchanged, and the park facility was not called. *)
Definition timed_out_untouched (wait_options : WaitOptions) (posts : nat)
    (e : Entry) (c : Config) : Prop :=
  state_ c = mkFutex INIT false
  /\ poster c = poster (fresh posts [e])
  /\ wpc (waiter c) = W_idle
  /\ finished (waiter c) = [(e, false)]
  /\ return_value (forward wait_options e) false = Some false
  /\ existsb writes_state (trace c) = false
  /\ existsb parks_or_waits (trace c) = false.

(** *** The deprecated aliases *)

(** An entry named by the call whose body it runs. *)
Definition canon_entry (wait_options : WaitOptions) (e : Entry) : Entry :=
  direct (forward wait_options e).

Definition canon (wait_options : WaitOptions) (c : Config) : Config :=
  mkConfig (state_ c) (poster c)
    (mkWaiter (wpc (waiter c)) (deadline (waiter c)) (opt (waiter c))
       (wview (waiter c))
       (map (canon_entry wait_options) (pending (waiter c)))
       (map (fun er => (canon_entry wait_options (fst er), snd er))
            (finished (waiter c))))
    (trace c).

(** What the calls that returned gave back to their caller, latest
    first. *)
Definition returns (wait_options : WaitOptions) (w : WaiterState)
  : list (option bool) :=
  map (fun er => return_value (forward wait_options (fst er)) (snd er))
      (finished w).

(** Everything of a configuration but the names of the entries: the state
    word, the poster, where the waiter stands with which deadline, options
    and view, how many entries are pending, what was returned, and the
    effects. *)
Definition observable (wait_options : WaitOptions) (c : Config) :=
  (state_ c, poster c, wpc (waiter c), deadline (waiter c), opt (waiter c),
   wview (waiter c), length (pending (waiter c)),
   returns wait_options (waiter c), trace c).

(** ** Destruction, reset and reuse *)

(** [~Baton()]: does its assertion hold? *)
Definition destructor_assert (a : Futex) (view : View) : bool :=
  let '(s, _) := load memory_order_relaxed a view in
  negb (State_eqb s WAITING).

(** The state word is WAITING only while the waiter is in the loop of
    [tryWaitSlow] (or was stopped there by the assertion). *)
Definition waiting_inv (c : Config) : bool :=
  implb (State_eqb (value (state_ c)) WAITING)
        (in_loop (wpc (waiter c))
         || match wpc (waiter c) with W_abort => true | _ => false end).

(** A new lifetime: the waiter, outside any call, resets the Baton; then
    the poster is given [posts] calls to make and the waiter [entries].
    What the threads did before stays in the counters, the answers and the
    trace.  [None] when the assertion of [reset] fails. *)
Definition reuse (c : Config) (posts : nat) (entries : list Entry)
  : option Config :=
  match reset (state_ c) (wview (waiter c)) with
  | None => None
  | Some a =>
      Some (mkConfig a
              (mkPoster P_idle posts (posts_done (poster c))
                        (pview (poster c)))
              (mkWaiter W_idle 0 (mkWaitOptions 0 false)
                        (wview (waiter c)) entries (finished (waiter c)))
              (trace c))
  end.

(** Two configurations that differ only in what happened before: the
    views, and a common past of [done] posts, answers [fin] and effects
    [tr] that the first one carries. *)
Definition same_lifetime (done : nat) (fin : list (Entry * bool))
    (tr : list Event) (c1 c2 : Config) : Prop :=
  value (state_ c1) = value (state_ c2)
  /\ ppc (poster c1) = ppc (poster c2)
  /\ posts_left (poster c1) = posts_left (poster c2)
  /\ posts_done (poster c1) = (posts_done (poster c2) + done)%nat
  /\ wpc (waiter c1) = wpc (waiter c2)
  /\ deadline (waiter c1) = deadline (waiter c2)
  /\ opt (waiter c1) = opt (waiter c2)
  /\ pending (waiter c1) = pending (waiter c2)
  /\ finished (waiter c1) = finished (waiter c2) ++ fin
  /\ trace c1 = tr ++ trace c2.

(** ** Counting effects and moves *)

Definition count_events (f : Event -> bool) (tr : list Event) : nat :=
  length (filter f tr).

(** A write of [post] to the state word. *)
Definition poster_write (ev : Event) : bool :=
  match ev with
  | EvStore Poster _ _ _ | EvExchange Poster _ _ _ => true
  | _ => false
  end.

Definition late_store (ev : Event) : bool :=
  match ev with
  | EvStore Poster _ LATE_DELIVERY _ => true
  | _ => false
  end.

Definition is_wake (ev : Event) : bool :=
  match ev with EvFutexWake => true | _ => false end.

Definition poster_ticks (sched : list Tick) : nat :=
  length (filter (fun t => match t with PosterMoves => true | _ => false end)
                 sched).

Definition waiter_ticks (sched : list Tick) : nat :=
  length (filter (fun t => match t with WaiterMoves _ => true | _ => false end)
                 sched).

(** How many of its own atomic operations the poster is from the end of
    the [post] it is in, or about to start, at most. *)
Definition post_distance (p : PosterState) : nat :=
  match ppc p with
  | P_idle => match posts_left p with O => 0 | S _ => 4 end
  | P_cas => 3
  | P_store_late => 2
  | P_wake => 1
  | P_store_early => 1
  | P_abort => 0
  end.

(** How many of its own atomic operations the waiter is from the end of
    its call, at most, once the Baton is delivered. *)
Definition wait_distance (pc : WaitPc) : nat :=
  match pc with
  | W_slow => 3
  | W_spin_pause => 2
  | W_park => 2
  | W_spin_yield | W_cas | W_timed_out | W_reload => 1
  | W_idle | W_abort => 0
  end.

(** After its one write, the may-block [post] has settled the state word:
    delivered or timed out, with no exchange or store pending. *)
Definition settled (c : Config) : bool :=
  in_states (value (state_ c)) [EARLY_DELIVERY; LATE_DELIVERY; TIMED_OUT]
  && match ppc (poster c) with
     | P_idle | P_wake | P_abort => true
     | _ => false
     end.

(** The entry is a [wait] (deadline: the maximal time point) or a
    [try_wait_until] or [timed_wait] with the deadline [d]. *)
Definition has_deadline (wait_options : WaitOptions) (d : Z) (e : Entry)
  : bool :=
  match forward wait_options e with
  | wait _ => d =? time_point_max
  | try_wait_until d' _ => d =? d'
  | try_wait_for _ _ => false
  end.

(** A park call is on the expected value WAITING with the deadline [d]. *)
Definition parks_until (d : Z) (ev : Event) : bool :=
  match ev with
  | EvFutexWait WAITING d' => d' =? d
  | EvFutexWait _ _ => false
  | _ => true
  end.

Definition deadline_inv (wait_options : WaitOptions) (d : Z) (c : Config)
  : Prop :=
  forallb (has_deadline wait_options d) (pending (waiter c)) = true
  /\ (in_slow_path (wpc (waiter c)) = true -> deadline (waiter c) = d).

(** The [futexWake] that [post] still owes for its store of
    LATE_DELIVERY. *)
Definition wake_pending (c : Config) : nat :=
  if ppc_eqb (ppc (poster c)) P_wake then 1 else 0.

(** No assertion has failed. *)
Definition no_abort (c : Config) : bool :=
  negb (ppc_eqb (ppc (poster c)) P_abort)
  && negb (match wpc (waiter c) with W_abort => true | _ => false end).

(** No wait-family call is made: the caller only polls [try_wait()]. *)
Definition polling_inv (c : Config) : bool :=
  match pending (waiter c), wpc (waiter c) with
  | [], W_idle => true
  | _, _ => false
  end
  && in_states (value (state_ c)) [INIT; EARLY_DELIVERY]
  && match ppc (poster c) with
     | P_store_late | P_wake => false
     | _ => true
     end.

(** ** The park facility between the two threads *)

(** Modelled from the spec: the park facility is an external collaborator
    whose code is not among the sources; its contract is that
    [park(address, expected, deadline)] blocks the caller while the word
    holds [expected] and the deadline has not passed, and may return
    spuriously, and that [wake_one(address)] wakes at most one thread
    parked on the address and does nothing when there is none.  [asleep]
    says that the waiter is blocked inside the park call of line 376,
    [notified] that a wake reached it there. *)
Record Parking : Set := mkParking {
  asleep : bool;
  notified : bool
}.

Definition awake : Parking := mkParking false false.

(** Modelled from the spec: what may happen next: one of the two threads
    is scheduled, or the park call of a sleeping waiter returns
    spuriously. *)
Inductive ParkTick : Set :=
| Runs (t : Tick)
| Spurious (o : Oracle).

(** Modelled from the spec: one tick with the park facility in place.  The
    poster moves as in [step]; its [futexWake] of line 182 notifies the
    waiter when it is asleep and is lost otherwise.  The waiter moves as in
    [step] everywhere but in the park call: there it falls asleep when the
    word is the expected WAITING and the deadline has not passed, returns
    at once when the word has changed, and once asleep it stays where it
    is until it is notified, its deadline passes or the call returns
    spuriously. *)
Definition park_step (MayBlock : bool) (wait_options : WaitOptions)
    (cg : Config * Parking) (pt : ParkTick) : Config * Parking :=
  let c := fst cg in
  let g := snd cg in
  match pt with
  | Runs PosterMoves =>
      (step MayBlock wait_options c PosterMoves,
       mkParking (asleep g)
         (notified g
          || (asleep g
              && existsb is_wake
                   (step_events MayBlock wait_options c PosterMoves))))
  | Runs (WaiterMoves o) =>
      match wpc (waiter c) with
      | W_park =>
          if asleep g then
            if notified g
            then (step MayBlock wait_options c (WaiterMoves (woken o)), awake)
            else match futex o with
                 | TIMEDOUT =>
                     (step MayBlock wait_options c (WaiterMoves o), awake)
                 | AWOKEN => (c, g)
                 end
          else if State_eqb (value (state_ c)) WAITING then
            match futex o with
            | TIMEDOUT =>
                (step MayBlock wait_options c (WaiterMoves o), awake)
            | AWOKEN => (c, mkParking true false)
            end
          else (step MayBlock wait_options c (WaiterMoves (woken o)), awake)
      | _ => (step MayBlock wait_options c (WaiterMoves o), g)
      end
  | Spurious o =>
      if asleep g
      then (step MayBlock wait_options c (WaiterMoves (woken o)), awake)
      else (c, g)
  end.

Definition park_run (MayBlock : bool) (wait_options : WaitOptions)
    (cg : Config * Parking) (sched : list ParkTick) : Config * Parking :=
  fold_left (park_step MayBlock wait_options) sched cg.

(** The ticks of [step] behind one tick of [park_step]. *)
Definition park_erase (cg : Config * Parking) (pt : ParkTick) : list Tick :=
  match pt with
  | Runs PosterMoves => [PosterMoves]
  | Runs (WaiterMoves o) =>
      match wpc (waiter (fst cg)) with
      | W_park =>
          if asleep (snd cg) then
            if notified (snd cg) then [WaiterMoves (woken o)]
            else match futex o with
                 | TIMEDOUT => [WaiterMoves o]
                 | AWOKEN => []
                 end
          else if State_eqb (value (state_ (fst cg))) WAITING then
            match futex o with
            | TIMEDOUT => [WaiterMoves o]
            | AWOKEN => []
            end
          else [WaiterMoves (woken o)]
      | _ => [WaiterMoves o]
      end
  | Spurious o =>
      if asleep (snd cg) then [WaiterMoves (woken o)] else []
  end.

(** A waiter is asleep only in the park call, and while it is asleep and
    not notified the word is still WAITING or the poster is about to call
    [futexWake]. *)
Definition sleep_inv (cg : Config * Parking) : bool :=
  negb (ppc_eqb (ppc (poster (fst cg))) P_store_early)
  && implb (asleep (snd cg))
       (match wpc (waiter (fst cg)) with W_park => true | _ => false end)
  && implb (asleep (snd cg) && negb (notified (snd cg)))
       (State_eqb (value (state_ (fst cg))) WAITING
        || ppc_eqb (ppc (poster (fst cg))) P_wake).

(** A [wait()] falls asleep in the park call and stays there while nobody
    posts. *)
Definition waiter_falls_asleep : list ParkTick :=
  [ Runs (W 100 Poll YieldPoll AWOKEN);
    Runs (W 100 Poll YieldPoll AWOKEN);
    Runs (W 100 Advance YieldPoll AWOKEN);
    Runs (W 100 Poll YieldPoll AWOKEN);
    Runs (W 100 Poll YieldPoll AWOKEN);
    Runs (W 200 Poll YieldPoll AWOKEN);
    Runs (W 300 Poll YieldPoll AWOKEN) ].

(** [post] finds the sleeping waiter's WAITING and stores LATE_DELIVERY;
    its [futexWake] is still to come. *)
Definition post_finds_sleeper : list ParkTick :=
  waiter_falls_asleep ++ [Runs PosterMoves; Runs PosterMoves].

(** ** Facts about schedules *)

Section Invariants.

Variable MayBlock : bool.
Variable wait_options : WaitOptions.

(** An invariant kept by every tick the environment may make is kept by
    every schedule of such ticks. *)
Lemma run_preserves (I : Config -> Prop) (T : Tick -> Prop) :
  (forall c t, T t -> I c -> I (step MayBlock wait_options c t)) ->
  forall sched c, Forall T sched -> I c -> I (run MayBlock wait_options c sched).
Proof.
  intros Hstep sched; induction sched as [|t sched IH]; intros c HT Hc.
  - exact Hc.
  - inversion HT; subst. apply IH; auto.
Qed.

Lemma run_app (c : Config) (s1 s2 : list Tick) :
  run MayBlock wait_options c (s1 ++ s2)
  = run MayBlock wait_options (run MayBlock wait_options c s1) s2.
Proof. apply fold_left_app. Qed.

End Invariants.

(** Case analysis on whatever a step function is stuck on. *)
Ltac open_config :=
  repeat match goal with
         | c : Config |- _ => destruct c
         | a : Futex |- _ => destruct a
         | p : PosterState |- _ => destruct p
         | w : WaiterState |- _ => destruct w
         | o : Oracle |- _ => destruct o
         end.

Ltac destruct_var_of t :=
  first [ is_var t; destruct t
        | match t with
          | ?f ?x => first [ destruct_var_of x | destruct_var_of f ]
          end ].

Ltac stuck_match :=
  match goal with
  | |- context [if ?x =? ?y then _ else _] => destruct (x =? y) eqn:?
  | H : context [if ?x =? ?y then _ else _] |- _ => destruct (x =? y) eqn:?
  | |- context [match ?x with _ => _ end] => destruct_var_of x
  | H : context [match ?x with _ => _ end] |- _ => destruct_var_of x
  end.

Ltac by_cases :=
  cbn in *; repeat (stuck_match; cbn in *).

Ltac enum_cases :=
  repeat match goal with
         | x : State |- _ => destruct x
         | x : WaitPc |- _ => destruct x
         | x : PostPc |- _ => destruct x
         end;
  cbn in *; intros; try reflexivity; try discriminate; try congruence.

Ltac unfold_steps :=
  unfold step, post_step, wait_step, post_after_before, post_return,
    post_goto, wait_return, wait_goto, wait_see, enter_slow,
    spin_pause_until, spin_yield_until,
    ready, try_wait, compare_exchange_strong, load, store in *.

Ltac close_bool :=
  cbn in *; intros; subst; try discriminate; try tauto;
  repeat match goal with
         | H : ?P -> _, H' : ?P |- _ => specialize (H H')
         | H : ?x = ?x -> _ |- _ => specialize (H eq_refl)
         end;
  subst; cbn in *; rewrite ?orb_true_r, ?orb_true_l;
  try reflexivity; try discriminate; try assumption; try tauto.

(** A tick of an environment that reports no timeout. *)
Ltac open_tick t Ht :=
  destruct t as [|[? ? ? ?]]; cbn in Ht;
  [|destruct Ht as (? & ? & ?); subst].

Ltac open_park_tick t Ht :=
  destruct t as [|[? ? ? ?]]; cbn in Ht; [|subst].

(** Evaluation of a concrete schedule. *)
Ltac run_concrete :=
  intros; unfold run, poster_runs; cbn;
  rewrite ?app_nil_r, <- ?app_assoc; cbn;
  rewrite ?orb_true_r, ?orb_false_r, ?andb_true_r; try reflexivity.

Lemma view_inv_step MayBlock wait_options (c : Config) (t : Tick) :
  view_inv c -> view_inv (step MayBlock wait_options c t).
Proof.
  unfold view_inv, succeeded; intros (Hp & Hm & Hw).
  destruct t; open_config; unfold_steps.
  all: by_cases; repeat split; close_bool.
Qed.

Lemma trace_step MayBlock wait_options (c : Config) (t : Tick) :
  trace (step MayBlock wait_options c t)
  = trace c ++ step_events MayBlock wait_options c t.
Proof.
  unfold step, step_events; destruct t.
  - destruct (post_step MayBlock (state_ c) (poster c)) as [[a p] evs].
    reflexivity.
  - destruct (wait_step MayBlock wait_options (state_ c) (waiter c) o)
      as [[a w] evs].
    reflexivity.
Qed.

Lemma blocking_inv_step wait_options (c : Config) (t : Tick) :
  blocking_inv c = true -> blocking_inv (step true wait_options c t) = true.
Proof.
  unfold blocking_inv; destruct t; open_config; unfold_steps.
  all: by_cases; intros; try assumption; enum_cases.
Qed.

Lemma posted_inv_step MayBlock wait_options (c : Config) (t : Tick) :
  posted_inv c = true -> posted_inv (step MayBlock wait_options c t) = true.
Proof.
  unfold posted_inv, has_posted; destruct t; open_config; unfold_steps.
  all: by_cases; intros; try assumption;
    try match goal with
        | H : context [Nat.eqb ?n _] |- _ => destruct n
        end;
    enum_cases.
Qed.

Lemma spin_only_state_step wait_options (c : Config) (t : Tick) :
  spin_only_state c = true ->
  spin_only_state (step false wait_options c t) = true
  /\ forallb spin_only_event (step_events false wait_options c t) = true.
Proof.
  unfold spin_only_state, step_events;
    destruct t; open_config; unfold_steps.
  all: by_cases; intros; try (split; [assumption|reflexivity]);
    try congruence; enum_cases; try (split; reflexivity).
Qed.

Lemma spin_only_inv_step wait_options (c : Config) (t : Tick) :
  spin_only_inv c -> spin_only_inv (step false wait_options c t).
Proof.
  intros [Hs Htr].
  destruct (spin_only_state_step wait_options c t Hs) as [Hs' Hev].
  split; [exact Hs'|].
  rewrite trace_step, forallb_app, Htr, Hev. reflexivity.
Qed.

Lemma view_inv_fresh posts entries : view_inv (fresh posts entries).
Proof. repeat split; discriminate. Qed.

Lemma view_inv_run MayBlock wait_options posts entries sched :
  view_inv (run MayBlock wait_options (fresh posts entries) sched).
Proof.
  apply run_preserves with (T := fun _ => True).
  - intros c t _. apply view_inv_step.
  - apply Forall_forall; trivial.
  - apply view_inv_fresh.
Qed.

(** ** The assertions under the lifecycle contract *)



(** ** Visibility of the poster's writes *)

(** What the orderings do in the view model: a relaxed load leaves the
    reader's view as it is and a relaxed store publishes nothing, while an
    acquire load of a word written by a release store of a thread that
    sees the payload sees it too. *)
Remark orderings_in_the_view_model (a : Futex) (s : State) (v : View) :
  snd (load memory_order_relaxed a v) = v
  /\ msg (store s memory_order_relaxed v) = false
  /\ snd (load memory_order_acquire (store s memory_order_release true) v)
     = true.
Proof.
  unfold load, store; cbn. rewrite orb_true_r. repeat split.
Qed.

(** C1: in every interleaving of the poster's and the waiter's atomic
    operations on a fresh Baton, a call of the wait family that answers
    "posted" leaves the waiter seeing everything the poster wrote before
    calling [post]: each successful return follows an acquire load (or a
    failed exchange with acquire ordering) that read a value stored by a
    release operation of [post]. *)
Theorem wait_success_sees_post
    MayBlock wait_options posts entries sched e :
  In (e, true)
     (finished (waiter (run MayBlock wait_options (fresh posts entries) sched))) ->
  wview (waiter (run MayBlock wait_options (fresh posts entries) sched)) = true.
Proof.
  intros Hin.
  destruct (view_inv_run MayBlock wait_options posts entries sched)
    as (_ & _ & Hw).
  apply Hw. unfold succeeded. apply existsb_exists.
  exists (e, true); split; [exact Hin | reflexivity].
Qed.

Lemma wait_success_sees_post_witness :
  In (direct (wait opts), true)
     (finished (waiter (run true opts (fresh 1 [direct (wait opts)])
                            post_then_wait)))
  /\ wview (waiter (run true opts (fresh 1 [direct (wait opts)])
                        post_then_wait)) = true.
Proof.
  assert (H : In (direct (wait opts), true)
                 (finished (waiter (run true opts (fresh 1 [direct (wait opts)])
                                        post_then_wait))))
    by (vm_compute; left; reflexivity).
  split; [exact H|].
  exact (wait_success_sees_post true opts 1 [direct (wait opts)]
           post_then_wait (direct (wait opts)) H).
Defined.

(** ** The edges of the state word *)

Lemma fresh_is_spin_only_inv posts entries :
  spin_only_inv (fresh posts entries).
Proof. split; reflexivity. Qed.

Lemma blocking_inv_run wait_options posts entries sched :
  blocking_inv (run true wait_options (fresh posts entries) sched) = true.
Proof.
  apply run_preserves
    with (I := fun c => blocking_inv c = true) (T := fun _ => True).
  - intros c t _. apply blocking_inv_step.
  - apply Forall_forall; trivial.
  - reflexivity.
Qed.

Lemma posted_inv_run MayBlock wait_options posts entries sched :
  posted_inv (run MayBlock wait_options (fresh posts entries) sched) = true.
Proof.
  apply run_preserves
    with (I := fun c => posted_inv c = true) (T := fun _ => True).
  - intros c t _. apply posted_inv_step.
  - apply Forall_forall; trivial.
  - reflexivity.
Qed.

Lemma spin_only_inv_run wait_options posts entries sched :
  spin_only_inv (run false wait_options (fresh posts entries) sched).
Proof.
  apply run_preserves with (T := fun _ => True).
  - intros c t _. apply spin_only_inv_step.
  - apply Forall_forall; trivial.
  - apply fresh_is_spin_only_inv.
Qed.






(** ** [post] in the may-block version *)

(** C3: [post] of the may-block version, run without interference from a
    state word holding INIT, TIMED_OUT or WAITING, and from a failed
    exchange that observed WAITING.  INIT: the exchange INIT ->
    EARLY_DELIVERY with release ordering is the only effect, no wake.
    TIMED_OUT, loaded or left in [before] by the failed exchange: no
    effect at all, the word, the trace and the waiter (its recorded
    answers included) are unchanged.  WAITING, loaded or left in [before]
    by the failed exchange: LATE_DELIVERY is stored with release ordering
    and then [futexWake] is called.  That is the only path to the park
    facility: from any state word and any point of [post], an operation
    calls [futexWake] exactly when it is the one after the store of
    LATE_DELIVERY, and it is there exactly after that store. *)
Theorem post_may_block_cases
    (wait_options : WaitOptions) (m v : bool) (n d : nat)
    (w : WaiterState) (tr : list Event) :
  run true wait_options
      (mkConfig (mkFutex INIT m) (mkPoster P_idle (S n) d v) w tr)
      (poster_runs 2)
  = mkConfig (mkFutex EARLY_DELIVERY (v || m || m))
             (mkPoster P_idle n (S d) (v || m)) w
             (tr ++ [EvExchange Poster INIT EARLY_DELIVERY
                       memory_order_release])
  /\ run true wait_options
         (mkConfig (mkFutex TIMED_OUT m) (mkPoster P_idle (S n) d v) w tr)
         (poster_runs 1)
     = mkConfig (mkFutex TIMED_OUT m) (mkPoster P_idle n (S d) (v || m)) w tr
  /\ run true wait_options
         (mkConfig (mkFutex WAITING m) (mkPoster P_idle (S n) d v) w tr)
         (poster_runs 3)
     = mkConfig (mkFutex LATE_DELIVERY (v || m))
                (mkPoster P_idle n (S d) (v || m)) w
                (tr ++ [EvStore Poster WAITING LATE_DELIVERY
                          memory_order_release; EvFutexWake])
  /\ run true wait_options
         (mkConfig (mkFutex WAITING m) (mkPoster P_cas n d v) w tr)
         (poster_runs 3)
     = mkConfig (mkFutex LATE_DELIVERY v) (mkPoster P_idle n (S d) v) w
                (tr ++ [EvStore Poster WAITING LATE_DELIVERY
                          memory_order_release; EvFutexWake])
  /\ run true wait_options
         (mkConfig (mkFutex TIMED_OUT m) (mkPoster P_cas n d v) w tr)
         (poster_runs 1)
     = mkConfig (mkFutex TIMED_OUT m) (mkPoster P_idle n (S d) v) w tr
  /\ (forall (a : Futex) (p : PosterState),
        existsb is_wake (snd (post_step true a p))
        = ppc_eqb (ppc p) P_wake
        /\ ppc_eqb (ppc (snd (fst (post_step true a p)))) P_wake
           = ppc_eqb (ppc p) P_store_late).
Proof.
  repeat split; try run_concrete.
  - destruct a, p; unfold_steps; by_cases; reflexivity.
  - destruct a, p; unfold_steps; by_cases; reflexivity.
Qed.

(** ** The spin-only version *)

Lemma spin_only_event_quiet (ev : Event) :
  spin_only_event ev = true -> parks_or_waits ev = false.
Proof.
  destruct ev as [t old new mo|t old new mo| | |]; cbn; try discriminate;
    try reflexivity.
  destruct t, new, mo; cbn; try discriminate; reflexivity.
Qed.

Lemma spin_only_trace_quiet (tr : list Event) :
  forallb spin_only_event tr = true -> existsb parks_or_waits tr = false.
Proof.
  induction tr as [|ev tr IH]; cbn; [reflexivity|].
  intros H. apply andb_true_iff in H. destruct H as [Hev Htr].
  rewrite (spin_only_event_quiet ev Hev), (IH Htr). reflexivity.
Qed.

(** C4: in the spin-only version no schedule of [post] and wait-family
    calls, whatever the deadlines, the clock and the moves of the spin
    helpers, stores WAITING or calls [futexWait] or [futexWake]; the state
    word is never WAITING and the waiter never reaches its exchange or the
    parking loop: all it does is poll [ready()] from the two helpers. *)
Theorem spin_only_never_parks
    wait_options posts entries sched :
  let c := run false wait_options (fresh posts entries) sched in
  existsb parks_or_waits (trace c) = false
  /\ value (state_ c) <> WAITING
  /\ wpc (waiter c) <> W_cas
  /\ in_loop (wpc (waiter c)) = false.
Proof.
  intros c.
  destruct (spin_only_inv_run wait_options posts entries sched) as [Hs Htr].
  fold c in Hs, Htr. unfold spin_only_state in Hs.
  repeat (apply andb_true_iff in Hs; destruct Hs as [Hs ?]).
  repeat split.
  - apply spin_only_trace_quiet, Htr.
  - intros Hv. rewrite Hv in Hs. discriminate Hs.
  - intros Hpc. rewrite Hpc in *. discriminate.
  - destruct (in_loop (wpc (waiter c))); [discriminate|reflexivity].
Qed.

(** A hand-off of the spin-only version: the only effects are the log
    entry and the poster's release store. *)
Example spin_only_handoff_run :
  let c := run false opts (fresh 1 [direct (try_wait_for 50 opts)])
               spin_only_handoff in
  returns opts (waiter c) = [Some true]
  /\ wview (waiter c) = true
  /\ trace c = [EvLogBlocking 0;
                EvStore Poster INIT EARLY_DELIVERY memory_order_release].
Proof. vm_compute. repeat split. Qed.

(** ** The parking loop *)





(** ** The exchange INIT -> WAITING *)

Lemma in_call_inv_step MayBlock wait_options (c : Config) (t : Tick) :
  in_call_inv c = true -> in_call_inv (step MayBlock wait_options c t) = true.
Proof.
  unfold in_call_inv; destruct t; open_config; unfold_steps.
  all: by_cases; intros; try assumption; enum_cases.
Qed.

Lemma in_call_inv_run MayBlock wait_options posts entries sched :
  in_call_inv (run MayBlock wait_options (fresh posts entries) sched) = true.
Proof.
  apply run_preserves
    with (I := fun c => in_call_inv c = true) (T := fun _ => True).
  - intros c t _. apply in_call_inv_step.
  - apply Forall_forall; trivial.
  - reflexivity.
Qed.

(** What the exchange does in a configuration that satisfies the
    invariants. *)
Lemma exchange_step wait_options (c : Config) (o : Oracle) :
  blocking_inv c = true -> in_call_inv c = true -> view_inv c ->
  wpc (waiter c) = W_cas ->
  let c' := step true wait_options c (WaiterMoves o) in
  (value (state_ c) = INIT
   /\ value (state_ c') = WAITING
   /\ wpc (waiter c') = W_park)
  \/ (value (state_ c) = EARLY_DELIVERY
      /\ state_ c' = state_ c
      /\ wpc (waiter c') = W_idle
      /\ finished (waiter c')
         = (hd (direct (wait wait_options)) (pending (waiter c)), true)
             :: finished (waiter c)
      /\ wview (waiter c')
         = snd (load memory_order_acquire (state_ c) (wview (waiter c)))
      /\ wview (waiter c') = true).
Proof.
  unfold blocking_inv, in_call_inv, view_inv.
  intros Hb Hc (_ & Hm & _) Hpc.
  open_config; cbn in Hpc; subst; unfold_steps; cbn in *.
  destruct value0; cbn in *; try discriminate.
  - left. repeat split.
  - right. destruct pending0; [discriminate|]. cbn.
    rewrite (Hm eq_refl), orb_true_r. repeat split.
Qed.

(** C6: in the may-block version, in every schedule, when the waiter
    reaches its exchange INIT -> WAITING the state word is INIT or
    EARLY_DELIVERY.  So the exchange either succeeds and the waiter parks,
    or it fails having observed EARLY_DELIVERY: the assertion holds, the
    call answers true, nothing is stored, and the acquire ordering of the
    failed exchange makes the waiter see the poster's writes. *)
Theorem exchange_fails_only_on_early_delivery
    wait_options posts entries sched (o : Oracle) :
  let c := run true wait_options (fresh posts entries) sched in
  let c' := step true wait_options c (WaiterMoves o) in
  wpc (waiter c) = W_cas ->
  (value (state_ c) = INIT
   /\ value (state_ c') = WAITING
   /\ wpc (waiter c') = W_park)
  \/ (value (state_ c) = EARLY_DELIVERY
      /\ state_ c' = state_ c
      /\ wpc (waiter c') = W_idle
      /\ finished (waiter c')
         = (hd (direct (wait wait_options)) (pending (waiter c)), true)
             :: finished (waiter c)
      /\ wview (waiter c')
         = snd (load memory_order_acquire (state_ c) (wview (waiter c)))
      /\ wview (waiter c') = true).
Proof.
  intros c c' Hpc. apply exchange_step; try exact Hpc.
  - apply blocking_inv_run.
  - apply in_call_inv_run.
  - apply view_inv_run.
Qed.

Lemma exchange_fails_only_on_early_delivery_witness :
  let c := run true opts (fresh 1 [direct (try_wait_for 50 opts)])
               post_lands_before_exchange in
  let c' := step true opts c (WaiterMoves (mkOracle 100 Poll YieldPoll AWOKEN)) in
  wpc (waiter c) = W_cas
  /\ value (state_ c) = EARLY_DELIVERY
  /\ finished (waiter c') = [(direct (try_wait_for 50 opts), true)]
  /\ ((value (state_ c) = INIT
       /\ value (state_ c') = WAITING
       /\ wpc (waiter c') = W_park)
      \/ (value (state_ c) = EARLY_DELIVERY
          /\ state_ c' = state_ c
          /\ wpc (waiter c') = W_idle
          /\ finished (waiter c')
             = (hd (direct (wait opts)) (pending (waiter c)), true)
                 :: finished (waiter c)
          /\ wview (waiter c')
             = snd (load memory_order_acquire (state_ c) (wview (waiter c)))
          /\ wview (waiter c') = true)).
Proof.
  split; [reflexivity|]. split; [reflexivity|]. split; [reflexivity|].
  apply (exchange_fails_only_on_early_delivery opts 1
           [direct (try_wait_for 50 opts)] post_lands_before_exchange
           (mkOracle 100 Poll YieldPoll AWOKEN)).
  reflexivity.
Defined.

(** ** A deadline that expires while spinning *)

Lemma pause_polls_idle MayBlock wait_options (polls : list Oracle) :
  Forall (fun o => pause o = Poll) polls ->
  forall p d op v pend fin tr,
    run MayBlock wait_options (spinning W_spin_pause p d op v pend fin tr)
        (map WaiterMoves polls)
    = spinning W_spin_pause p d op v pend fin tr.
Proof.
  induction 1 as [|o polls Ho _ IH]; intros; [reflexivity|].
  cbn [map]. change (WaiterMoves o :: map WaiterMoves polls)
    with ([WaiterMoves o] ++ map WaiterMoves polls).
  rewrite run_app.
  replace (run MayBlock wait_options
             (spinning W_spin_pause p d op v pend fin tr) [WaiterMoves o])
    with (spinning W_spin_pause p d op v pend fin tr).
  - apply IH.
  - unfold spinning, run; cbn. rewrite Ho; cbn.
    rewrite app_nil_r, orb_false_r. reflexivity.
Qed.

Lemma yield_polls_idle MayBlock wait_options (polls : list Oracle) :
  Forall (fun o => yield o = YieldPoll) polls ->
  forall p d op v pend fin tr,
    run MayBlock wait_options (spinning W_spin_yield p d op v pend fin tr)
        (map WaiterMoves polls)
    = spinning W_spin_yield p d op v pend fin tr.
Proof.
  induction 1 as [|o polls Ho _ IH]; intros; [reflexivity|].
  cbn [map]. change (WaiterMoves o :: map WaiterMoves polls)
    with ([WaiterMoves o] ++ map WaiterMoves polls).
  rewrite run_app.
  replace (run MayBlock wait_options
             (spinning W_spin_yield p d op v pend fin tr) [WaiterMoves o])
    with (spinning W_spin_yield p d op v pend fin tr).
  - apply IH.
  - unfold spinning, run; cbn. rewrite Ho; cbn.
    rewrite app_nil_r, orb_false_r. reflexivity.
Qed.

(** The first two moves of a call on a fresh Baton: [try_wait()] answers
    false and [tryWaitSlow] logs. *)
Lemma enter_spin MayBlock wait_options posts e (o1 o2 : Oracle) :
  run MayBlock wait_options (fresh posts [e])
      [WaiterMoves o1; WaiterMoves o2]
  = spinning W_spin_pause (mkPoster P_idle posts 0 true)
      (fst (slow_args (forward wait_options e) o1))
      (snd (slow_args (forward wait_options e) o1))
      false [e] []
      (log_of (snd (slow_args (forward wait_options e) o1))
              (fst (slow_args (forward wait_options e) o1)) (now o2)).
Proof.
  unfold run, fresh, spinning, log_of; cbn. reflexivity.
Qed.

Lemma log_of_writes_nothing op d t :
  existsb writes_state (log_of op d t) = false
  /\ existsb parks_or_waits (log_of op d t) = false.
Proof. unfold log_of; destruct (logging_enabled op); split; reflexivity. Qed.

(** C7: a bounded wait on a fresh Baton, with no post, whose spin helper
    reports the timeout — after any number of polls, none included, and
    whatever the deadline and the clock, a deadline in the past included —
    answers false and leaves the state word as constructed: nothing is
    stored or exchanged and the park facility is not called.  This holds
    for [spin_pause_until] in both versions and for [spin_yield_until] in
    the spin-only version. *)
Theorem spin_timeout_leaves_init
    MayBlock wait_options posts e (o1 o2 oe oa oy : Oracle)
    (polls ypolls : list Oracle) :
  is_bounded (forward wait_options e) = true ->
  Forall (fun o => pause o = Poll) polls ->
  Forall (fun o => yield o = YieldPoll) ypolls ->
  pause oe = Expire -> pause oa = Advance -> yield oy = YieldExpire ->
  timed_out_untouched wait_options posts e
    (run MayBlock wait_options (fresh posts [e])
         ([WaiterMoves o1; WaiterMoves o2] ++ polls_then polls oe))
  /\ timed_out_untouched wait_options posts e
       (run false wait_options (fresh posts [e])
            ([WaiterMoves o1; WaiterMoves o2]
               ++ polls_then polls oa ++ polls_then ypolls oy)).
Proof.
  intros Hb Hp Hy He Ha Hyy.
  assert (Hr : return_value (forward wait_options e) false = Some false).
  { destruct (forward wait_options e); [discriminate Hb| |]; reflexivity. }
  split; unfold polls_then.
  - rewrite run_app, enter_spin, run_app, (pause_polls_idle _ _ _ Hp).
    unfold spinning, run, timed_out_untouched; cbn. rewrite He; cbn.
    rewrite app_nil_r.
    repeat split; try exact Hr; apply log_of_writes_nothing.
  - rewrite run_app, enter_spin, run_app.
    rewrite (run_app _ _ _ (map WaiterMoves polls) [WaiterMoves oa]),
      (pause_polls_idle _ _ _ Hp).
    replace (run false wait_options
               (spinning W_spin_pause (mkPoster P_idle posts 0 true)
                  (fst (slow_args (forward wait_options e) o1))
                  (snd (slow_args (forward wait_options e) o1)) false
                  [e] []
                  (log_of (snd (slow_args (forward wait_options e) o1))
                     (fst (slow_args (forward wait_options e) o1)) (now o2)))
               [WaiterMoves oa])
      with (spinning W_spin_yield (mkPoster P_idle posts 0 true)
              (fst (slow_args (forward wait_options e) o1))
              (snd (slow_args (forward wait_options e) o1)) false
              [e] []
              (log_of (snd (slow_args (forward wait_options e) o1))
                 (fst (slow_args (forward wait_options e) o1)) (now o2))).
    + rewrite run_app, (yield_polls_idle _ _ _ Hy).
      unfold spinning, run, timed_out_untouched; cbn. rewrite Hyy; cbn.
      rewrite app_nil_r.
      repeat split; try exact Hr; apply log_of_writes_nothing.
    + unfold spinning, run; cbn. rewrite Ha; cbn.
      rewrite app_nil_r. reflexivity.
Qed.

Lemma spin_timeout_leaves_init_witness :
  timed_out_untouched opts 0 (direct (try_wait_until 50 opts))
    (run true opts (fresh 0 [direct (try_wait_until 50 opts)])
         ([W 100 Poll YieldPoll AWOKEN; W 100 Poll YieldPoll AWOKEN]
            ++ polls_then [] (mkOracle 100 Expire YieldPoll AWOKEN)))
  /\ timed_out_untouched opts 0 (direct (try_wait_until 50 opts))
       (run false opts (fresh 0 [direct (try_wait_until 50 opts)])
            ([W 100 Poll YieldPoll AWOKEN; W 100 Poll YieldPoll AWOKEN]
               ++ polls_then [] (mkOracle 100 Advance YieldPoll AWOKEN)
               ++ polls_then [mkOracle 100 Poll YieldPoll AWOKEN]
                    (mkOracle 100 Poll YieldExpire AWOKEN))).
Proof.
  apply (spin_timeout_leaves_init true opts 0
           (direct (try_wait_until 50 opts))
           (mkOracle 100 Poll YieldPoll AWOKEN) (mkOracle 100 Poll YieldPoll AWOKEN)
           (mkOracle 100 Expire YieldPoll AWOKEN)
           (mkOracle 100 Advance YieldPoll AWOKEN)
           (mkOracle 100 Poll YieldExpire AWOKEN)
           [] [mkOracle 100 Poll YieldPoll AWOKEN]);
    try reflexivity; repeat constructor.
Defined.

(** ** [ready] *)

(** C8, as the code has it: [ready()] answers false on a fresh Baton; it
    only loads, so asking again changes nothing; and in every schedule,
    once a [post] has returned, [ready()] answers true unless the state
    word is TIMED_OUT, which happens when a bounded wait timed out while
    parked (the post was dropped, or its LATE_DELIVERY was overwritten). *)
Theorem ready_after_post
    MayBlock wait_options posts entries sched (v : View) :
  let c := run MayBlock wait_options (fresh posts entries) sched in
  has_posted (poster c) = true ->
  fst (ready (state_ (fresh posts entries)) v) = false
  /\ (fst (ready (state_ c) v) = true \/ value (state_ c) = TIMED_OUT)
  /\ fst (ready (state_ c) (snd (ready (state_ c) v)))
     = fst (ready (state_ c) v).
Proof.
  intros c Hp. split; [reflexivity|]. split; [|reflexivity].
  pose proof (posted_inv_run MayBlock wait_options posts entries sched)
    as Hinv.
  fold c in Hinv. unfold posted_inv in Hinv. rewrite Hp in Hinv.
  unfold ready, load; cbn.
  destruct (value (state_ c)); cbn in *; try discriminate; auto.
Qed.

Lemma ready_after_post_witness :
  let c := run true opts (fresh 1 [direct (wait opts)]) post_then_wait in
  has_posted (poster c) = true
  /\ fst (ready (state_ c) false) = true.
Proof.
  split; [reflexivity|].
  destruct (ready_after_post true opts 1 [direct (wait opts)]
              post_then_wait false eq_refl) as (_ & [H|H] & _).
  - exact H.
  - discriminate H.
Defined.

(** C8 as stated fails: a [try_wait_until] parks and times out, which
    stores TIMED_OUT; the [post] that follows returns without storing, and
    [ready()] answers false after it. *)
Lemma ready_after_post_counterexample :
  let c := run true opts (fresh 1 [direct (try_wait_until 500 opts)])
               timeout_then_post in
  has_posted (poster c) = true
  /\ posts_done (poster c) = 1%nat
  /\ value (state_ c) = TIMED_OUT
  /\ fst (ready (state_ c) false) = false.
Proof.
  vm_compute. repeat split.
Qed.

(** ** [wait()]: the maximal deadline *)

Lemma no_timeout_state_step MayBlock wait_options (c : Config) (t : Tick) :
  park_never_times_out t ->
  no_timeout_state c = true ->
  no_timeout_state (step MayBlock wait_options c t) = true.
Proof.
  unfold no_timeout_state; intros Ht; open_park_tick t Ht;
    open_config; unfold_steps.
  all: by_cases; intros; try assumption; enum_cases.
Qed.

Lemma all_answers_true_step MayBlock wait_options (c : Config) (t : Tick) :
  never_times_out t ->
  no_timeout_state c = true ->
  all_answers_true c = true ->
  all_answers_true (step MayBlock wait_options c t) = true.
Proof.
  unfold no_timeout_state, all_answers_true; intros Ht; open_tick t Ht;
    open_config; unfold_steps.
  all: by_cases; intros; try assumption; enum_cases.
Qed.














(** ** [timed_wait] *)

Lemma step_canon MayBlock wait_options (c : Config) (t : Tick) :
  canon wait_options (step MayBlock wait_options c t)
  = step MayBlock wait_options (canon wait_options c) t.
Proof.
  unfold canon; destruct t; open_config; unfold_steps.
  all: by_cases; reflexivity.
Qed.

Lemma run_canon MayBlock wait_options (sched : list Tick) :
  forall c,
    canon wait_options (run MayBlock wait_options c sched)
    = run MayBlock wait_options (canon wait_options c) sched.
Proof.
  induction sched as [|t sched IH]; intros c; [reflexivity|].
  cbn [run fold_left]. fold (run MayBlock wait_options).
  rewrite <- step_canon. apply IH.
Qed.

Lemma observable_canon wait_options (c : Config) :
  observable wait_options (canon wait_options c) = observable wait_options c.
Proof.
  unfold observable, canon, returns; cbn.
  rewrite length_map, map_map. reflexivity.
Qed.

(** C10: on a fresh Baton, under every schedule, [timed_wait(timeout)] and
    [try_wait_for(timeout)] with the default options leave the same state
    word, the same effects, the same waiter and poster, and give the same
    answers back; so do [timed_wait(deadline)] and
    [try_wait_until(deadline)]. *)
Theorem timed_wait_is_try_wait
    MayBlock wait_options posts (timeout deadline : Z) rest sched :
  observable wait_options
    (run MayBlock wait_options
         (fresh posts (timed_wait_for timeout :: rest)) sched)
  = observable wait_options
      (run MayBlock wait_options
           (fresh posts (direct (try_wait_for timeout wait_options) :: rest))
           sched)
  /\ observable wait_options
       (run MayBlock wait_options
            (fresh posts (timed_wait_until deadline :: rest)) sched)
     = observable wait_options
         (run MayBlock wait_options
              (fresh posts
                 (direct (try_wait_until deadline wait_options) :: rest))
              sched).
Proof.
  split.
  - rewrite <- (observable_canon wait_options
                  (run _ _ (fresh posts (timed_wait_for timeout :: rest)) _)),
      <- (observable_canon wait_options
            (run _ _ (fresh posts (direct _ :: rest)) _)),
      !run_canon.
    reflexivity.
  - rewrite <- (observable_canon wait_options
                  (run _ _ (fresh posts (timed_wait_until deadline :: rest)) _)),
      <- (observable_canon wait_options
            (run _ _ (fresh posts (direct _ :: rest)) _)),
      !run_canon.
    reflexivity.
Qed.

(** ** Further properties of the code *)

(** A bool-valued invariant kept by every tick holds after every schedule
    from a fresh Baton. *)
Lemma bool_inv_run MayBlock wait_options (I : Config -> bool)
    posts entries sched :
  I (fresh posts entries) = true ->
  (forall c t, I c = true -> I (step MayBlock wait_options c t) = true) ->
  I (run MayBlock wait_options (fresh posts entries) sched) = true.
Proof.
  intros H0 Hstep.
  apply run_preserves with (I := fun c => I c = true) (T := fun _ => True).
  - intros c t _. apply Hstep.
  - apply Forall_forall; trivial.
  - exact H0.
Qed.

(** *** The assertion of the spin-only [post] *)

(** X1: the bit test of the spin-only [post],
    [((1 << state) & ((1 << INIT) | (1 << EARLY_DELIVERY))) != 0], holds
    exactly for INIT and EARLY_DELIVERY. *)
Theorem spin_only_assert_spec (s : State) :
  spin_only_assert s = true <-> s = INIT \/ s = EARLY_DELIVERY.
Proof.
  split.
  - destruct s; cbn; intros H; try discriminate; auto.
  - intros [-> | ->]; reflexivity.
Qed.

Lemma spin_only_no_abort_step wait_options (c : Config) (t : Tick) :
  spin_only_state c && no_abort c = true ->
  spin_only_state (step false wait_options c t)
  && no_abort (step false wait_options c t) = true.
Proof.
  unfold spin_only_state, no_abort; destruct t; open_config; unfold_steps.
  all: by_cases; intros; try assumption; enum_cases.
Qed.

(** X2: in the spin-only version no assertion ever fails, however many
    times [post] and the wait family are called and however the calls
    interleave: [post] always finds INIT or EARLY_DELIVERY and so does
    [try_wait()]. *)
Theorem spin_only_assertions_hold wait_options posts entries sched :
  let c := run false wait_options (fresh posts entries) sched in
  ppc (poster c) <> P_abort /\ wpc (waiter c) <> W_abort.
Proof.
  intros c.
  assert (H : spin_only_state c && no_abort c = true).
  { apply (bool_inv_run false wait_options
             (fun c => spin_only_state c && no_abort c)).
    - reflexivity.
    - intros c0 t. apply spin_only_no_abort_step. }
  apply andb_true_iff in H. destruct H as [_ H].
  unfold no_abort in H. apply andb_true_iff in H. destruct H as [Hp Hw].
  split; intros Hpc; rewrite Hpc in *; discriminate.
Qed.

(** *** Destruction and reset *)

Lemma waiting_inv_step MayBlock wait_options (c : Config) (t : Tick) :
  waiting_inv c = true -> waiting_inv (step MayBlock wait_options c t) = true.
Proof.
  unfold waiting_inv; destruct t; open_config; unfold_steps.
  all: by_cases; intros; try assumption; enum_cases.
Qed.

(** X3: in every schedule of either version, whenever the waiter is outside
    a call the state word is not WAITING: the assertion of [~Baton()] and
    of [reset()] holds, and [reset()] leaves the word as the constructor
    does. *)
Theorem idle_waiter_may_destroy_or_reset
    MayBlock wait_options posts entries sched (v : View) :
  let c := run MayBlock wait_options (fresh posts entries) sched in
  wpc (waiter c) = W_idle ->
  destructor_assert (state_ c) v = true
  /\ reset (state_ c) v = Some (state_ (fresh posts entries)).
Proof.
  intros c Hpc.
  assert (H : waiting_inv c = true).
  { apply (bool_inv_run MayBlock wait_options waiting_inv).
    - reflexivity.
    - intros c0 t. apply waiting_inv_step. }
  unfold waiting_inv in H. rewrite Hpc in H.
  unfold destructor_assert, reset, load, store; cbn in *.
  destruct (State_eqb (value (state_ c)) WAITING); [discriminate|].
  split; reflexivity.
Qed.

Lemma idle_waiter_may_destroy_or_reset_witness :
  let c := run true opts (fresh 1 [direct (try_wait_until 500 opts)])
               timeout_then_post in
  wpc (waiter c) = W_idle
  /\ destructor_assert (state_ c) false = true
  /\ reset (state_ c) false = Some (mkFutex INIT false).
Proof.
  split; [reflexivity|].
  exact (idle_waiter_may_destroy_or_reset true opts 1
           [direct (try_wait_until 500 opts)] timeout_then_post false
           eq_refl).
Defined.

Lemma same_lifetime_step MayBlock wait_options done fin tr
    (c1 c2 : Config) (t : Tick) :
  same_lifetime done fin tr c1 c2 ->
  same_lifetime done fin tr (step MayBlock wait_options c1 t)
                            (step MayBlock wait_options c2 t).
Proof.
  unfold same_lifetime.
  destruct c1 as [[v1 m1] [pp1 pl1 pd1 pv1] [wp1 d1 op1 wv1 pe1 fi1] tr1].
  destruct c2 as [[v2 m2] [pp2 pl2 pd2 pv2] [wp2 d2 op2 wv2 pe2 fi2] tr2].
  cbn. intros (? & ? & ? & ? & ? & ? & ? & ? & ? & ?); subst.
  destruct t as [|o]; [|destruct o]; unfold_steps.
  all: by_cases; repeat split; rewrite ?app_nil_r, ?app_assoc;
    try reflexivity.
Qed.

Lemma same_lifetime_run MayBlock wait_options done fin tr sched :
  forall c1 c2,
    same_lifetime done fin tr c1 c2 ->
    same_lifetime done fin tr (run MayBlock wait_options c1 sched)
                              (run MayBlock wait_options c2 sched).
Proof.
  induction sched as [|t sched IH]; intros c1 c2 H; [exact H|].
  cbn [run fold_left]. fold (run MayBlock wait_options).
  apply IH, same_lifetime_step, H.
Qed.

(** X4: [reset()] is equivalent to destroying the Baton and creating a new
    one.  After any schedule that leaves both threads outside their calls,
    the assertion of [reset()] holds, and the Baton it leaves behaves
    under every schedule of the next lifetime as a fresh one does: same
    state word, same positions of both threads, the same answers and the
    same effects, added to those of the past. *)
Theorem reset_is_a_new_baton
    MayBlock wait_options posts0 entries0 sched0 posts entries :
  let c := run MayBlock wait_options (fresh posts0 entries0) sched0 in
  wpc (waiter c) = W_idle ->
  ppc (poster c) = P_idle ->
  exists c',
    reuse c posts entries = Some c'
    /\ forall sched,
         same_lifetime (posts_done (poster c)) (finished (waiter c))
           (trace c)
           (run MayBlock wait_options c' sched)
           (run MayBlock wait_options (fresh posts entries) sched).
Proof.
  intros c Hw Hp.
  assert (H : waiting_inv c = true).
  { apply (bool_inv_run MayBlock wait_options waiting_inv).
    - reflexivity.
    - intros c0 t. apply waiting_inv_step. }
  unfold waiting_inv in H. rewrite Hw in H.
  unfold reuse, reset, load, store; cbn in *.
  destruct (State_eqb (value (state_ c)) WAITING); [discriminate|].
  eexists; split; [reflexivity|].
  intros sched. apply same_lifetime_run.
  unfold same_lifetime; cbn. rewrite app_nil_r. repeat split.
Qed.

Lemma reset_is_a_new_baton_witness :
  let c := run true opts (fresh 1 [direct (try_wait_until 500 opts)])
               timeout_then_post in
  exists c',
    reuse c 1 [direct (wait opts)] = Some c'
    /\ forall sched,
         same_lifetime (posts_done (poster c)) (finished (waiter c))
           (trace c)
           (run true opts c' sched)
           (run true opts (fresh 1 [direct (wait opts)]) sched).
Proof.
  exact (reset_is_a_new_baton true opts 1
           [direct (try_wait_until 500 opts)] timeout_then_post
           1%nat [direct (wait opts)] eq_refl eq_refl).
Defined.

(** *** Polling [try_wait()] *)

Lemma polling_inv_step MayBlock wait_options (c : Config) (t : Tick) :
  polling_inv c = true ->
  polling_inv (step MayBlock wait_options c t) = true
  /\ (value (state_ c) = EARLY_DELIVERY ->
      value (state_ (step MayBlock wait_options c t)) = EARLY_DELIVERY).
Proof.
  unfold polling_inv; destruct t; open_config; unfold_steps.
  all: by_cases; intros; try (split; [assumption|trivial]);
    enum_cases; split; intros; try reflexivity; try discriminate.
Qed.

Lemma polling_stays_delivered MayBlock wait_options (sched : list Tick) :
  forall c,
    polling_inv c = true ->
    value (state_ c) = EARLY_DELIVERY ->
    value (state_ (run MayBlock wait_options c sched)) = EARLY_DELIVERY.
Proof.
  induction sched as [|t sched IH]; intros c Hi Hv; [exact Hv|].
  cbn [run fold_left]. fold (run MayBlock wait_options).
  destruct (polling_inv_step MayBlock wait_options c t Hi) as [Hi' Hv'].
  apply IH; auto.
Qed.

(** X5: a caller that makes no wait-family call may poll [try_wait()] at
    any time, in either version and whatever the number of posts: its
    assertion holds in every schedule; an answer of true makes the caller
    see the poster's writes (the load is an acquire load); and once it has
    answered true it answers true after any further schedule. *)
Theorem try_wait_polling
    MayBlock wait_options posts sched more (v : View) :
  let c := run MayBlock wait_options (fresh posts []) sched in
  let c' := run MayBlock wait_options c more in
  fst (try_wait (state_ c) v) <> None
  /\ (fst (try_wait (state_ c) v) = Some true ->
      snd (try_wait (state_ c) v) = true
      /\ fst (try_wait (state_ c') v) = Some true).
Proof.
  intros c c'.
  assert (Hi : polling_inv c = true).
  { apply (bool_inv_run MayBlock wait_options polling_inv).
    - reflexivity.
    - intros c0 t H. apply polling_inv_step, H. }
  destruct (view_inv_run MayBlock wait_options posts [] sched)
    as (_ & Hm & _).
  fold c in Hm.
  pose proof (polling_stays_delivered MayBlock wait_options more c Hi)
    as Hstay.
  fold c' in Hstay.
  unfold polling_inv in Hi.
  apply andb_true_iff in Hi. destruct Hi as [Hi _].
  apply andb_true_iff in Hi. destruct Hi as [_ Hv].
  unfold try_wait, load; cbn in *.
  destruct (value (state_ c)) eqn:Ev; cbn in *; try discriminate.
  - split; [discriminate|]. intros H; discriminate H.
  - split; [discriminate|]. intros _.
    rewrite (Hm eq_refl), orb_true_r, (Hstay eq_refl). split; reflexivity.
Qed.

(** *** What the answers mean *)

(** X6: if [post] is called before the wait, the wait returns
    immediately: in either version, for every call of the wait family and
    whatever its environment answers, one operation of the waiter after a
    completed [post] answers true, the waiter sees the poster's writes,
    and the only effect in the trace is the one write of [post]: no log,
    no exchange to WAITING, no park call. *)
Theorem post_then_wait_returns_at_once
    MayBlock wait_options (n : nat) (e : Entry) (rest : list Entry)
    (o : Oracle) :
  let c := run MayBlock wait_options (fresh (S n) (e :: rest))
               (poster_runs 2 ++ [WaiterMoves o]) in
  state_ c = mkFutex EARLY_DELIVERY true
  /\ posts_done (poster c) = 1%nat
  /\ waiter c = mkWaiter W_idle 0 (mkWaitOptions 0 false) true rest
                         [(e, true)]
  /\ count_events writes_state (trace c) = 1%nat
  /\ count_events poster_write (trace c) = 1%nat
  /\ length (trace c) = 1%nat.
Proof.
  destruct MayBlock; cbn; repeat split.
Qed.

Lemma answers_step MayBlock wait_options (c : Config) (t : Tick) :
  never_times_out t ->
  no_timeout_state c && all_answers_true c = true ->
  no_timeout_state (step MayBlock wait_options c t)
  && all_answers_true (step MayBlock wait_options c t) = true.
Proof.
  intros Ht H. apply andb_true_iff in H. destruct H as [Hn Ha].
  apply andb_true_iff; split.
  - apply no_timeout_state_step; [apply Ht | exact Hn].
  - apply all_answers_true_step; assumption.
Qed.

(** X7: a call of the wait family answers false only on a timeout: in
    every schedule, for any calls with any deadlines, if neither the park
    call nor a spin helper ever reports a timeout, every call that
    returned answered true. *)
Theorem false_only_on_timeout
    MayBlock wait_options posts entries sched e r :
  Forall never_times_out sched ->
  In (e, r)
     (finished (waiter (run MayBlock wait_options (fresh posts entries)
                            sched))) ->
  r = true.
Proof.
  intros Hs Hin.
  assert (H : no_timeout_state
                (run MayBlock wait_options (fresh posts entries) sched)
              && all_answers_true
                   (run MayBlock wait_options (fresh posts entries) sched)
              = true).
  { apply run_preserves
      with (I := fun c => no_timeout_state c && all_answers_true c = true)
           (T := never_times_out); auto.
    intros c t Ht. apply answers_step; exact Ht. }
  apply andb_true_iff in H. destruct H as [_ Ha].
  unfold all_answers_true in Ha. rewrite forallb_forall in Ha.
  apply (Ha (e, r) Hin).
Qed.

Lemma false_only_on_timeout_witness :
  exists r,
    In (direct (try_wait_for 50 opts), r)
       (finished (waiter (run true opts
                            (fresh 1 [direct (try_wait_for 50 opts)])
                            (post_lands_before_exchange
                               ++ [W 100 Poll YieldPoll AWOKEN]))))
    /\ r = true.
Proof.
  assert (Hs : Forall never_times_out
                 (post_lands_before_exchange
                    ++ [W 100 Poll YieldPoll AWOKEN])).
  { repeat constructor; discriminate. }
  assert (Hin : In (direct (try_wait_for 50 opts), true)
                   (finished (waiter (run true opts
                      (fresh 1 [direct (try_wait_for 50 opts)])
                      (post_lands_before_exchange
                         ++ [W 100 Poll YieldPoll AWOKEN])))))
    by (left; reflexivity).
  exists true. split; [exact Hin|].
  exact (false_only_on_timeout true opts 1
           [direct (try_wait_for 50 opts)]
           (post_lands_before_exchange ++ [W 100 Poll YieldPoll AWOKEN])
           (direct (try_wait_for 50 opts)) true Hs Hin).
Defined.

Lemma count_events_app (f : Event -> bool) (l1 l2 : list Event) :
  count_events f (l1 ++ l2) = (count_events f l1 + count_events f l2)%nat.
Proof.
  unfold count_events. rewrite filter_app, length_app. reflexivity.
Qed.

(** The state word becomes delivered only by a write of [post]. *)
Lemma delivery_step MayBlock wait_options (c : Config) (t : Tick) :
  ready_state (value (state_ (step MayBlock wait_options c t))) = true ->
  ready_state (value (state_ c)) = true
  \/ existsb poster_write (step_events MayBlock wait_options c t) = true.
Proof.
  unfold step_events; destruct t; open_config; unfold_steps.
  all: by_cases; intros; auto; enum_cases; auto.
Qed.

(** A call answers true only when it finds the state word delivered. *)
Lemma success_step MayBlock wait_options (c : Config) (t : Tick) :
  succeeded (waiter (step MayBlock wait_options c t)) = true ->
  succeeded (waiter c) = true \/ ready_state (value (state_ c)) = true.
Proof.
  unfold succeeded; destruct t; open_config; unfold_steps.
  all: by_cases; intros; auto; enum_cases; auto.
Qed.

Lemma delivery_logged_run MayBlock wait_options posts entries sched :
  let c := run MayBlock wait_options (fresh posts entries) sched in
  (ready_state (value (state_ c)) = true ->
   existsb poster_write (trace c) = true)
  /\ (succeeded (waiter c) = true ->
      existsb poster_write (trace c) = true).
Proof.
  apply run_preserves
    with (I := fun c =>
                 (ready_state (value (state_ c)) = true ->
                  existsb poster_write (trace c) = true)
                 /\ (succeeded (waiter c) = true ->
                     existsb poster_write (trace c) = true))
         (T := fun _ => True).
  - intros c t _ [Hr Hs].
    assert (Hr' : ready_state
                    (value (state_ (step MayBlock wait_options c t))) = true ->
                  existsb poster_write
                    (trace (step MayBlock wait_options c t)) = true).
    { intros H. rewrite trace_step, existsb_app.
      destruct (delivery_step MayBlock wait_options c t H) as [H1|H1].
      - rewrite (Hr H1). reflexivity.
      - rewrite H1. apply orb_true_r. }
    split; [exact Hr'|].
    intros H. rewrite trace_step, existsb_app.
    destruct (success_step MayBlock wait_options c t H) as [H1|H1].
    + rewrite (Hs H1). reflexivity.
    + rewrite (Hr H1). reflexivity.
  - apply Forall_forall; trivial.
  - split; discriminate.
Qed.

(** X8: no spurious success.  In every schedule of either version, a call
    of the wait family that answered true was preceded by a write of
    [post] to the state word: neither a wakeup of the park facility nor a
    move of a spin helper makes a wait succeed by itself. *)
Theorem success_needs_a_post
    MayBlock wait_options posts entries sched e :
  In (e, true)
     (finished (waiter (run MayBlock wait_options (fresh posts entries)
                            sched))) ->
  existsb poster_write
    (trace (run MayBlock wait_options (fresh posts entries) sched)) = true.
Proof.
  intros Hin.
  apply (delivery_logged_run MayBlock wait_options posts entries sched).
  unfold succeeded. apply existsb_exists.
  exists (e, true); split; [exact Hin|reflexivity].
Qed.

Lemma success_needs_a_post_witness :
  In (direct (wait opts), true)
     (finished (waiter (run true opts (fresh 1 [direct (wait opts)])
                            post_then_wait)))
  /\ existsb poster_write
       (trace (run true opts (fresh 1 [direct (wait opts)]) post_then_wait))
     = true.
Proof.
  assert (H : In (direct (wait opts), true)
                 (finished (waiter (run true opts
                                      (fresh 1 [direct (wait opts)])
                                      post_then_wait))))
    by (left; reflexivity).
  split; [exact H|].
  exact (success_needs_a_post true opts 1 [direct (wait opts)]
           post_then_wait (direct (wait opts)) H).
Defined.

(** *** What [post] writes and when it wakes *)

Lemma count_events_le (f g : Event -> bool) (l : list Event) :
  (forall ev, f ev = true -> g ev = true) ->
  (count_events f l <= count_events g l)%nat.
Proof.
  intros H. unfold count_events.
  induction l as [|ev l IH]; cbn; [lia|].
  destruct (f ev) eqn:Ef.
  - rewrite (H ev Ef). cbn. lia.
  - destruct (g ev); cbn; lia.
Qed.

Lemma wake_step MayBlock wait_options (c : Config) (t : Tick) :
  (count_events is_wake (step_events MayBlock wait_options c t)
   + wake_pending (step MayBlock wait_options c t)
   = count_events late_store (step_events MayBlock wait_options c t)
     + wake_pending c)%nat.
Proof.
  unfold step_events, wake_pending, count_events;
    destruct t; open_config; unfold_steps.
  all: by_cases; try reflexivity; enum_cases.
Qed.

Lemma wake_count_run MayBlock wait_options posts entries sched :
  let c := run MayBlock wait_options (fresh posts entries) sched in
  (count_events is_wake (trace c) + wake_pending c
   = count_events late_store (trace c))%nat.
Proof.
  apply run_preserves
    with (I := fun c =>
                 (count_events is_wake (trace c) + wake_pending c
                  = count_events late_store (trace c))%nat)
         (T := fun _ => True).
  - intros c0 t _ H0. rewrite trace_step, !count_events_app.
    pose proof (wake_step MayBlock wait_options c0 t). lia.
  - apply Forall_forall; trivial.
  - reflexivity.
Qed.

(** X9: [post] calls [futexWake] once for each store of LATE_DELIVERY,
    after the store, and never otherwise: at every point of every
    schedule the wakes made so far, plus the one still owed right after a
    store, are as many as the stores of LATE_DELIVERY. *)
Theorem wake_follows_late_store
    MayBlock wait_options posts entries sched :
  let c := run MayBlock wait_options (fresh posts entries) sched in
  (count_events is_wake (trace c) + wake_pending c
   = count_events late_store (trace c))%nat
  /\ (count_events is_wake (trace c)
      <= count_events late_store (trace c))%nat.
Proof.
  intros c.
  pose proof (wake_count_run MayBlock wait_options posts entries sched)
    as H.
  cbv zeta in H. fold c in H. split; [exact H | lia].
Qed.

Lemma settled_step wait_options (c : Config) (t : Tick) :
  settled c = true ->
  settled (step true wait_options c t) = true
  /\ count_events poster_write (step_events true wait_options c t) = 0%nat.
Proof.
  unfold settled, step_events, count_events;
    destruct t; open_config; unfold_steps.
  all: by_cases; intros; try (split; [assumption|reflexivity]);
    enum_cases; split; reflexivity.
Qed.

Lemma first_write_step wait_options (c : Config) (t : Tick) :
  count_events poster_write (step_events true wait_options c t) = 0%nat
  \/ (count_events poster_write (step_events true wait_options c t) = 1%nat
      /\ settled (step true wait_options c t) = true).
Proof.
  unfold settled, step_events, count_events;
    destruct t; open_config; unfold_steps.
  all: by_cases; auto.
Qed.

(** X10: at most one delivery.  In the may-block version, however many
    times [post] is called and however the calls interleave with the
    waiter, [post] writes the state word at most once and calls
    [futexWake] at most once: a later [post] is a no-op on TIMED_OUT and is
    stopped by its assertion on EARLY_DELIVERY or LATE_DELIVERY. *)
Theorem at_most_one_delivery wait_options posts entries sched :
  let c := run true wait_options (fresh posts entries) sched in
  (count_events poster_write (trace c) <= 1)%nat
  /\ (count_events is_wake (trace c) <= 1)%nat.
Proof.
  intros c.
  assert (H : count_events poster_write (trace c) = 0%nat
              \/ (count_events poster_write (trace c) = 1%nat
                  /\ settled c = true)).
  { apply run_preserves
      with (I := fun c =>
                   count_events poster_write (trace c) = 0%nat
                   \/ (count_events poster_write (trace c) = 1%nat
                       /\ settled c = true))
           (T := fun _ => True).
    - intros c0 t _ H0. rewrite trace_step, !count_events_app.
      destruct H0 as [H0|[H0 Hs]].
      + destruct (first_write_step wait_options c0 t) as [H1|[H1 Hs1]].
        * left. lia.
        * right. split; [lia|exact Hs1].
      + destruct (settled_step wait_options c0 t Hs) as [Hs1 H1].
        right. split; [lia|exact Hs1].
    - apply Forall_forall; trivial.
    - left. reflexivity. }
  assert (Hw : (count_events is_wake (trace c)
                <= count_events poster_write (trace c))%nat).
  { pose proof (wake_count_run true wait_options posts entries sched)
      as Hle.
    cbv zeta in Hle. fold c in Hle.
    pose proof (count_events_le late_store poster_write (trace c)) as Hlp.
    assert (Hi : forall ev, late_store ev = true -> poster_write ev = true).
    { intros [t0 old new mo|t0 old new mo| | |]; cbn; try discriminate.
      destruct t0; [reflexivity|discriminate]. }
    specialize (Hlp Hi). lia. }
  destruct H as [H|[H _]]; lia.
Qed.

(** *** Progress *)

Lemma posts_done_step MayBlock wait_options (c : Config) (t : Tick) :
  (posts_done (poster c)
   <= posts_done (poster (step MayBlock wait_options c t)))%nat.
Proof.
  destruct t; open_config; unfold_steps.
  all: by_cases; lia.
Qed.

Lemma poster_abort_step MayBlock wait_options (c : Config) (t : Tick) :
  ppc (poster c) = P_abort ->
  ppc (poster (step MayBlock wait_options c t)) = P_abort.
Proof.
  intros H; destruct t; open_config; cbn in H; subst; unfold_steps.
  all: by_cases; reflexivity.
Qed.

Lemma posts_done_run MayBlock wait_options (sched : list Tick) (c : Config) :
  (posts_done (poster c)
   <= posts_done (poster (run MayBlock wait_options c sched)))%nat.
Proof.
  apply run_preserves
    with (I := fun x => (posts_done (poster c) <= posts_done (poster x))%nat)
         (T := fun _ => True).
  - intros c0 t _ H.
    pose proof (posts_done_step MayBlock wait_options c0 t). lia.
  - apply Forall_forall; trivial.
  - lia.
Qed.

Lemma poster_abort_run MayBlock wait_options (sched : list Tick) (c : Config) :
  ppc (poster c) = P_abort ->
  ppc (poster (run MayBlock wait_options c sched)) = P_abort.
Proof.
  intros H.
  apply run_preserves
    with (I := fun x => ppc (poster x) = P_abort) (T := fun _ => True).
  - intros c0 t _. apply poster_abort_step.
  - apply Forall_forall; trivial.
  - exact H.
Qed.

(** One operation of the poster ends its [post], fails an assertion, or
    brings it nearer to the end. *)
Lemma post_progress_step MayBlock wait_options (c : Config) :
  (0 < post_distance (poster c))%nat ->
  let c' := step MayBlock wait_options c PosterMoves in
  posts_done (poster c') = S (posts_done (poster c))
  \/ ppc (poster c') = P_abort
  \/ (posts_done (poster c') = posts_done (poster c)
      /\ (0 < post_distance (poster c') < post_distance (poster c))%nat).
Proof.
  unfold post_distance; open_config; unfold_steps.
  all: by_cases; intros; try lia; auto;
    enum_cases; auto; try (right; right; split; [reflexivity|lia]).
Qed.

Lemma waiter_tick_keeps_poster MayBlock wait_options (c : Config) (o : Oracle) :
  poster (step MayBlock wait_options c (WaiterMoves o)) = poster c.
Proof.
  unfold step.
  destruct (wait_step MayBlock wait_options (state_ c) (waiter c) o)
    as [[a w] evs].
  reflexivity.
Qed.

Lemma post_progress_run MayBlock wait_options (sched : list Tick) :
  forall c,
    (0 < post_distance (poster c))%nat ->
    (post_distance (poster c) <= poster_ticks sched)%nat ->
    (posts_done (poster c)
     < posts_done (poster (run MayBlock wait_options c sched)))%nat
    \/ ppc (poster (run MayBlock wait_options c sched)) = P_abort.
Proof.
  induction sched as [|t sched IH]; intros c Hpos Hle.
  - cbn in Hle. lia.
  - change (run MayBlock wait_options c (t :: sched))
      with (run MayBlock wait_options (step MayBlock wait_options c t)
                sched).
    destruct t as [|o].
    + change (poster_ticks (PosterMoves :: sched))
        with (S (poster_ticks sched)) in Hle.
      pose proof (post_progress_step MayBlock wait_options c Hpos) as Hs.
      cbv zeta in Hs. destruct Hs as [Hd|[Ha|[Hd Hlt]]].
      * left.
        pose proof (posts_done_run MayBlock wait_options sched
                      (step MayBlock wait_options c PosterMoves)).
        lia.
      * right. apply poster_abort_run, Ha.
      * destruct (IH (step MayBlock wait_options c PosterMoves))
          as [H|H]; [lia|lia| |].
        -- left. lia.
        -- right. exact H.
    + change (poster_ticks (WaiterMoves o :: sched))
        with (poster_ticks sched) in Hle.
      destruct (IH (step MayBlock wait_options c (WaiterMoves o)))
        as [H|H].
      * rewrite waiter_tick_keeps_poster. exact Hpos.
      * rewrite waiter_tick_keeps_poster. exact Hle.
      * left. rewrite waiter_tick_keeps_poster in H. exact H.
      * right. exact H.
Qed.

(** X11: [post] never blocks.  From any configuration in which the poster
    is inside a [post] or has one to make, four of its own atomic
    operations at most, interleaved in any way with operations of the
    waiter, bring that [post] to its return (or to a failed assertion):
    load, exchange, store and wake, with no loop and no wait on the other
    thread. *)
Theorem post_is_wait_free MayBlock wait_options (c : Config) sched :
  (0 < post_distance (poster c))%nat ->
  (4 <= poster_ticks sched)%nat ->
  (posts_done (poster c)
   < posts_done (poster (run MayBlock wait_options c sched)))%nat
  \/ ppc (poster (run MayBlock wait_options c sched)) = P_abort.
Proof.
  intros Hpos Hle. apply post_progress_run; [exact Hpos|].
  unfold post_distance in *.
  destruct (ppc (poster c)); try lia.
  destruct (posts_left (poster c)); lia.
Qed.

Lemma post_is_wait_free_witness :
  (posts_done (poster (fresh 1 [direct (wait opts)]))
   < posts_done
       (poster (run true opts (fresh 1 [direct (wait opts)])
                    (timeout_races_post ++ poster_runs 3))))%nat
  \/ ppc (poster (run true opts (fresh 1 [direct (wait opts)])
                      (timeout_races_post ++ poster_runs 3))) = P_abort.
Proof.
  apply (post_is_wait_free true opts (fresh 1 [direct (wait opts)])
           (timeout_races_post ++ poster_runs 3)).
  - cbn. lia.
  - cbn. lia.
Defined.

Lemma finished_step MayBlock wait_options (c : Config) (t : Tick) :
  (length (finished (waiter c))
   <= length (finished (waiter (step MayBlock wait_options c t))))%nat.
Proof.
  destruct t; open_config; unfold_steps.
  all: by_cases; lia.
Qed.

Lemma waiter_abort_step MayBlock wait_options (c : Config) (t : Tick) :
  wpc (waiter c) = W_abort ->
  wpc (waiter (step MayBlock wait_options c t)) = W_abort.
Proof.
  intros H; destruct t; open_config; cbn in H; subst; unfold_steps.
  all: by_cases; reflexivity.
Qed.

Lemma finished_run MayBlock wait_options (sched : list Tick) (c : Config) :
  (length (finished (waiter c))
   <= length (finished (waiter (run MayBlock wait_options c sched))))%nat.
Proof.
  apply run_preserves
    with (I := fun x => (length (finished (waiter c))
                         <= length (finished (waiter x)))%nat)
         (T := fun _ => True).
  - intros c0 t _ H.
    pose proof (finished_step MayBlock wait_options c0 t). lia.
  - apply Forall_forall; trivial.
  - lia.
Qed.

Lemma waiter_abort_run MayBlock wait_options (sched : list Tick) (c : Config) :
  wpc (waiter c) = W_abort ->
  wpc (waiter (run MayBlock wait_options c sched)) = W_abort.
Proof.
  intros H.
  apply run_preserves
    with (I := fun x => wpc (waiter x) = W_abort) (T := fun _ => True).
  - intros c0 t _. apply waiter_abort_step.
  - apply Forall_forall; trivial.
  - exact H.
Qed.

(** What the waiter needs to make progress: the Baton is delivered and
    the waiter is inside a call. *)
Lemma poster_tick_keeps_delivery MayBlock wait_options (c : Config) :
  ready_state (value (state_ c)) = true ->
  ready_state (value (state_ (step MayBlock wait_options c PosterMoves)))
  = true
  /\ waiter (step MayBlock wait_options c PosterMoves) = waiter c.
Proof.
  open_config; unfold_steps.
  all: by_cases; intros; try (split; [assumption|reflexivity]);
    enum_cases; split; reflexivity.
Qed.

(** Once the Baton is delivered, one operation of the waiter ends its
    call, fails an assertion, or brings the call nearer to the end. *)
Lemma wait_progress_step MayBlock wait_options (c : Config) (o : Oracle) :
  ready_state (value (state_ c)) = true ->
  in_call_inv c = true ->
  (0 < wait_distance (wpc (waiter c)))%nat ->
  let c' := step MayBlock wait_options c (WaiterMoves o) in
  length (finished (waiter c')) = S (length (finished (waiter c)))
  \/ wpc (waiter c') = W_abort
  \/ (length (finished (waiter c')) = length (finished (waiter c))
      /\ (0 < wait_distance (wpc (waiter c'))
          < wait_distance (wpc (waiter c)))%nat
      /\ ready_state (value (state_ c')) = true
      /\ in_call_inv c' = true).
Proof.
  unfold in_call_inv; open_config; unfold_steps.
  all: by_cases; intros; try lia; try discriminate; auto;
    enum_cases; auto;
    try (right; right; repeat split; first [reflexivity | lia]).
Qed.

Lemma wait_progress_run MayBlock wait_options (sched : list Tick) :
  forall c,
    ready_state (value (state_ c)) = true ->
    in_call_inv c = true ->
    (0 < wait_distance (wpc (waiter c)))%nat ->
    (wait_distance (wpc (waiter c)) <= waiter_ticks sched)%nat ->
    (length (finished (waiter c))
     < length (finished (waiter (run MayBlock wait_options c sched))))%nat
    \/ wpc (waiter (run MayBlock wait_options c sched)) = W_abort.
Proof.
  induction sched as [|t sched IH]; intros c Hr Hi Hpos Hle.
  - cbn in Hle. lia.
  - change (run MayBlock wait_options c (t :: sched))
      with (run MayBlock wait_options (step MayBlock wait_options c t)
                sched).
    destruct t as [|o].
    + change (waiter_ticks (PosterMoves :: sched))
        with (waiter_ticks sched) in Hle.
      destruct (poster_tick_keeps_delivery MayBlock wait_options c Hr)
        as [Hr' Hw].
      assert (Hi' : in_call_inv (step MayBlock wait_options c PosterMoves)
                    = true).
      { unfold in_call_inv in *. rewrite Hw. exact Hi. }
      destruct (IH (step MayBlock wait_options c PosterMoves) Hr' Hi')
        as [H|H].
      * rewrite Hw. exact Hpos.
      * rewrite Hw. exact Hle.
      * left. rewrite Hw in H. exact H.
      * right. exact H.
    + change (waiter_ticks (WaiterMoves o :: sched))
        with (S (waiter_ticks sched)) in Hle.
      pose proof (wait_progress_step MayBlock wait_options c o Hr Hi Hpos)
        as Hs.
      cbv zeta in Hs. destruct Hs as [Hd|[Ha|(Hd & Hlt & Hr' & Hi')]].
      * left.
        pose proof (finished_run MayBlock wait_options sched
                      (step MayBlock wait_options c (WaiterMoves o))).
        lia.
      * right. apply waiter_abort_run, Ha.
      * destruct (IH (step MayBlock wait_options c (WaiterMoves o))
                     Hr' Hi') as [H|H]; [lia|lia| |].
        -- left. lia.
        -- right. exact H.
Qed.

(** X15: bounded return after delivery.  Once the state word is
    EARLY_DELIVERY or LATE_DELIVERY, a waiter inside a call of the wait
    family returns (or fails an assertion) within three of its own atomic
    operations, each return of the park call counting as one, whatever the
    spin helpers and the park call answer and however the poster's
    operations interleave.  It takes the returns of the park call for
    granted. *)
Theorem delivered_wait_returns MayBlock wait_options (c : Config) sched :
  ready_state (value (state_ c)) = true ->
  in_call_inv c = true ->
  in_slow_path (wpc (waiter c)) = true ->
  (3 <= waiter_ticks sched)%nat ->
  (length (finished (waiter c))
   < length (finished (waiter (run MayBlock wait_options c sched))))%nat
  \/ wpc (waiter (run MayBlock wait_options c sched)) = W_abort.
Proof.
  intros Hr Hi Hs Hle.
  apply wait_progress_run; try assumption;
    destruct (wpc (waiter c)); cbn in *; try discriminate; lia.
Qed.

Lemma delivered_wait_returns_witness :
  let c := run true opts (fresh 1 [direct (try_wait_for 50 opts)])
               post_lands_before_exchange in
  (length (finished (waiter c))
   < length (finished (waiter (run true opts c
                                 [W 100 Poll YieldPoll TIMEDOUT;
                                  PosterMoves;
                                  W 100 Expire YieldExpire TIMEDOUT;
                                  W 100 Advance YieldPoll AWOKEN]))))%nat
  \/ wpc (waiter (run true opts c
                      [W 100 Poll YieldPoll TIMEDOUT;
                       PosterMoves;
                       W 100 Expire YieldExpire TIMEDOUT;
                       W 100 Advance YieldPoll AWOKEN])) = W_abort.
Proof.
  apply (delivered_wait_returns true opts
           (run true opts (fresh 1 [direct (try_wait_for 50 opts)])
                post_lands_before_exchange)
           [W 100 Poll YieldPoll TIMEDOUT; PosterMoves;
            W 100 Expire YieldExpire TIMEDOUT;
            W 100 Advance YieldPoll AWOKEN]).
  - reflexivity.
  - reflexivity.
  - reflexivity.
  - cbn. lia.
Defined.

(** *** The deadline of the park calls *)

Lemma has_deadline_slow_args wait_options d (e : Entry) (o : Oracle) :
  has_deadline wait_options d e = true ->
  fst (slow_args (forward wait_options e) o) = d.
Proof.
  unfold has_deadline.
  destruct (forward wait_options e); cbn; intros H; try discriminate;
    apply Z.eqb_eq in H; symmetry; exact H.
Qed.

Lemma deadline_inv_step MayBlock wait_options d (c : Config) (t : Tick) :
  deadline_inv wait_options d c ->
  deadline_inv wait_options d (step MayBlock wait_options c t).
Proof.
  unfold deadline_inv; intros [Hp Hd]; destruct t.
  - destruct c as [a p w tr]; unfold step; cbn [state_ poster waiter] in *.
    destruct (post_step MayBlock a p) as [[a' p'] evs]. cbn in *.
    split; assumption.
  - destruct c as [a p [pc dl op wv pend fin] tr]; destruct o;
      destruct a; cbn in Hp, Hd; unfold_steps.
    destruct pc, pend as [|e pend]; cbn in Hp; try discriminate;
      try (apply andb_true_iff in Hp; destruct Hp as [He Hp]);
      by_cases;
      (split;
       [ first [assumption | reflexivity
               | apply andb_true_iff; split; assumption]
       | intros Hpc;
         first [ apply Hd; first [assumption | reflexivity]
               | discriminate Hpc
               | apply (has_deadline_slow_args wait_options d e
                          (mkOracle now0 pause0 yield0 futex0) He) ] ]).
Qed.

Lemma deadline_events MayBlock wait_options d (c : Config) (t : Tick) :
  deadline_inv wait_options d c ->
  forallb (parks_until d) (step_events MayBlock wait_options c t) = true.
Proof.
  unfold deadline_inv, step_events; intros [_ Hd]; destruct t;
    open_config; unfold_steps.
  all: by_cases; intros; try reflexivity;
    try (rewrite (Hd eq_refl), Z.eqb_refl; reflexivity);
    enum_cases.
Qed.

(** X14: every park call is on the expected value WAITING and carries the
    caller's deadline.  For a waiter whose calls are [wait] (deadline: the
    maximal time point) or [try_wait_until] and [timed_wait] with the
    deadline [d], in every schedule every [futexWaitUntil] in the trace is
    [futexWaitUntil(state_, WAITING, d)]: the deadline is not changed
    between the iterations of the loop or between the calls. *)
Theorem park_calls_carry_the_deadline
    MayBlock wait_options d posts entries sched :
  forallb (has_deadline wait_options d) entries = true ->
  forallb (parks_until d)
    (trace (run MayBlock wait_options (fresh posts entries) sched)) = true.
Proof.
  intros He.
  assert (H : deadline_inv wait_options d
                (run MayBlock wait_options (fresh posts entries) sched)
              /\ forallb (parks_until d)
                   (trace (run MayBlock wait_options (fresh posts entries)
                               sched)) = true).
  { apply run_preserves
      with (I := fun c => deadline_inv wait_options d c
                          /\ forallb (parks_until d) (trace c) = true)
           (T := fun _ => True).
    - intros c t _ [Hi Htr]. split.
      + apply deadline_inv_step, Hi.
      + rewrite trace_step, forallb_app, Htr.
        apply deadline_events, Hi.
    - apply Forall_forall; trivial.
    - split; [split; [exact He | discriminate] | reflexivity]. }
  apply H.
Qed.

Lemma park_calls_carry_the_deadline_witness :
  forallb (parks_until 500)
    (trace (run true opts (fresh 1 [timed_wait_until 500])
                timeout_races_post)) = true
  /\ existsb parks_or_waits
       (trace (run true opts (fresh 1 [timed_wait_until 500])
                   timeout_races_post)) = true.
Proof.
  split; [|reflexivity].
  apply (park_calls_carry_the_deadline true opts 500 1
           [timed_wait_until 500] timeout_races_post).
  reflexivity.
Defined.


(** *** No lost wakeup *)

Lemma park_step_erase MayBlock wait_options cg pt :
  fst (park_step MayBlock wait_options cg pt)
  = run MayBlock wait_options (fst cg) (park_erase cg pt).
Proof.
  destruct cg as [c g]; unfold park_step, park_erase; cbn [fst snd].
  destruct pt as [[|o]|o]; try reflexivity.
  - destruct (wpc (waiter c)); try reflexivity.
    destruct (asleep g), (notified g), (futex o),
      (State_eqb (value (state_ c)) WAITING); reflexivity.
  - destruct (asleep g); reflexivity.
Qed.

Lemma park_run_erase MayBlock wait_options sched :
  forall cg, exists sched',
    fst (park_run MayBlock wait_options cg sched)
    = run MayBlock wait_options (fst cg) sched'.
Proof.
  induction sched as [|pt sched IH]; intros cg.
  - exists []. reflexivity.
  - destruct (IH (park_step MayBlock wait_options cg pt)) as [sched' H].
    exists (park_erase cg pt ++ sched').
    rewrite run_app, <- park_step_erase. exact H.
Qed.

Lemma sleep_inv_step wait_options cg pt :
  sleep_inv cg = true ->
  sleep_inv (park_step true wait_options cg pt) = true.
Proof.
  destruct cg as [c [[|] [|]]];
    unfold sleep_inv, park_step, step_events, woken.
  all: cbn [fst snd asleep notified].
  all: destruct pt as [[|o]|o]; open_config; unfold_steps.
  all: by_cases; enum_cases.
Qed.

Lemma sleep_inv_run wait_options sched :
  forall cg, sleep_inv cg = true ->
             sleep_inv (park_run true wait_options cg sched) = true.
Proof.
  induction sched as [|pt sched IH]; intros cg H; [exact H|].
  apply IH, sleep_inv_step, H.
Qed.

Lemma sleeper_is_notified wait_options cg :
  sleep_inv cg = true ->
  asleep (snd cg) = true ->
  value (state_ (fst cg)) = LATE_DELIVERY ->
  let cg' := park_step true wait_options cg (Runs PosterMoves) in
  wpc (waiter (fst cg)) = W_park
  /\ waiter (fst cg') = waiter (fst cg)
  /\ value (state_ (fst cg')) = LATE_DELIVERY
  /\ snd cg' = mkParking true true.
Proof.
  destruct cg as [c [[|] [|]]]; unfold sleep_inv, park_step, step_events.
  all: cbn [fst snd asleep notified].
  all: intros Hi Hs Hv; try discriminate Hs.
  all: open_config; cbn in Hv; subst; unfold_steps.
  all: by_cases; enum_cases; repeat split; reflexivity.
Qed.

Lemma notified_sleeper_returns wait_options (c : Config) o1 o2 :
  wpc (waiter c) = W_park ->
  value (state_ c) = LATE_DELIVERY ->
  let cg' := park_run true wait_options (c, mkParking true true)
               [Runs (WaiterMoves o1); Runs (WaiterMoves o2)] in
  wpc (waiter (fst cg')) = W_idle
  /\ snd cg' = awake
  /\ (forall e rest,
        pending (waiter c) = e :: rest ->
        finished (waiter (fst cg')) = (e, true) :: finished (waiter c)).
Proof.
  intros Hw Hv; open_config; cbn in Hw, Hv; subst.
  unfold park_run, park_step, woken, step, wait_step; cbn.
  unfold wait_return; cbn.
  destruct pending0; cbn; repeat split; intros; try discriminate.
  congruence.
Qed.

Lemma sleeper_returns wait_options cg o1 o2 :
  sleep_inv cg = true ->
  asleep (snd cg) = true ->
  value (state_ (fst cg)) = LATE_DELIVERY ->
  let cg' := park_run true wait_options cg
               [Runs PosterMoves; Runs (WaiterMoves o1);
                Runs (WaiterMoves o2)] in
  wpc (waiter (fst cg')) = W_idle
  /\ asleep (snd cg') = false
  /\ (forall e rest,
        pending (waiter (fst cg)) = e :: rest ->
        finished (waiter (fst cg'))
        = (e, true) :: finished (waiter (fst cg))).
Proof.
  intros Hi Hs Hv cg'.
  destruct (sleeper_is_notified wait_options cg Hi Hs Hv)
    as (Hp & Hw & Hv' & Hg).
  subst cg'.
  change (park_run true wait_options cg
            [Runs PosterMoves; Runs (WaiterMoves o1); Runs (WaiterMoves o2)])
    with (park_run true wait_options
            (park_step true wait_options cg (Runs PosterMoves))
            [Runs (WaiterMoves o1); Runs (WaiterMoves o2)]).
  destruct (park_step true wait_options cg (Runs PosterMoves)) as [c1 g1].
  cbn [fst snd] in Hw, Hv', Hg. subst g1.
  rewrite <- Hw in Hp.
  destruct (notified_sleeper_returns wait_options c1 o1 o2 Hp Hv')
    as (H1 & H2 & H3).
  split; [exact H1|]. split; [rewrite H2; reflexivity|].
  intros e rest He. rewrite <- Hw in He |- *. exact (H3 e rest He).
Qed.

(** X12: no lost wakeup.  Under a park call that really blocks (a sleeping
    waiter stays in the call until a [futexWake] reaches it, its deadline
    passes or the call returns spuriously), in every schedule of a
    may-block Baton from its initial state: the configuration reached is
    one that [run] reaches; a waiter is asleep only in the park call of
    line 376; while it is asleep and no wake has reached it, the state
    word is still WAITING or [post] stands right before its [futexWake]
    of line 182, and that call notifies it; and once the word is
    LATE_DELIVERY a sleeping waiter is out of the park call after the
    poster's next operation and has returned true after two operations of
    its own, whatever its environment answers. *)
Theorem no_lost_wakeup wait_options posts entries sched :
  let cg := park_run true wait_options (fresh posts entries, awake) sched in
  let c := fst cg in
  let g := snd cg in
  (exists sched', c = run true wait_options (fresh posts entries) sched')
  /\ (asleep g = true -> wpc (waiter c) = W_park)
  /\ (asleep g = true -> notified g = false ->
      value (state_ c) = WAITING \/ ppc (poster c) = P_wake)
  /\ (asleep g = true -> ppc (poster c) = P_wake ->
      notified (snd (park_step true wait_options cg (Runs PosterMoves)))
      = true)
  /\ (asleep g = true -> value (state_ c) = LATE_DELIVERY ->
      forall o1 o2,
        let cg' := park_run true wait_options cg
                     [Runs PosterMoves; Runs (WaiterMoves o1);
                      Runs (WaiterMoves o2)] in
        wpc (waiter (fst cg')) = W_idle
        /\ asleep (snd cg') = false
        /\ (forall e rest,
              pending (waiter c) = e :: rest ->
              finished (waiter (fst cg')) = (e, true) :: finished (waiter c))).
Proof.
  intros cg c g.
  assert (Hi : sleep_inv cg = true).
  { apply sleep_inv_run. reflexivity. }
  split; [|split; [|split; [|split]]].
  - apply (park_run_erase true wait_options sched (fresh posts entries, awake)).
  - intros Hs. unfold sleep_inv in Hi. fold c g in Hi. rewrite Hs in Hi.
    destruct (wpc (waiter c)); try reflexivity;
      rewrite !andb_false_r in Hi; try discriminate Hi;
      cbn in Hi; rewrite ?andb_false_r in Hi; discriminate Hi.
  - intros Hs Hn. unfold sleep_inv in Hi. fold c g in Hi.
    rewrite Hs, Hn in Hi. apply andb_true_iff in Hi. destruct Hi as [_ Hi].
    cbn in Hi. apply orb_true_iff in Hi. destruct Hi as [Hi|Hi].
    + left. destruct (value (state_ c)); try discriminate Hi. reflexivity.
    + right. destruct (ppc (poster c)); try discriminate Hi. reflexivity.
  - intros Hs Hp. unfold park_step, step_events. fold c g.
    cbn [snd notified]. rewrite Hs. unfold post_step. rewrite Hp.
    cbn. apply orb_true_r.
  - intros Hs Hv o1 o2. apply sleeper_returns; assumption.
Qed.

(** The waiter sleeps in the park call, [post] has stored LATE_DELIVERY
    and not yet called [futexWake]: the call notifies the waiter, which
    re-loads the word and returns true. *)
Lemma no_lost_wakeup_witness :
  let cg := park_run true opts (fresh 1 [direct (wait opts)], awake)
              post_finds_sleeper in
  let cg' := park_run true opts cg
               [Runs PosterMoves; Runs (W 400 Poll YieldPoll AWOKEN);
                Runs (W 500 Poll YieldPoll AWOKEN)] in
  snd cg = mkParking true false
  /\ value (state_ (fst cg)) = LATE_DELIVERY
  /\ ppc (poster (fst cg)) = P_wake
  /\ notified (snd (park_step true opts cg (Runs PosterMoves))) = true
  /\ wpc (waiter (fst cg')) = W_idle
  /\ asleep (snd cg') = false
  /\ finished (waiter (fst cg')) = [(direct (wait opts), true)].
Proof.
  destruct (no_lost_wakeup opts 1 [direct (wait opts)] post_finds_sleeper)
    as (_ & _ & _ & Hn & Hr).
  specialize (Hn eq_refl eq_refl).
  destruct (Hr eq_refl eq_refl (mkOracle 400 Poll YieldPoll AWOKEN)
               (mkOracle 500 Poll YieldPoll AWOKEN)) as (Hw & Hs & Hf).
  split; [reflexivity|]. split; [reflexivity|]. split; [reflexivity|].
  split; [exact Hn|]. split; [exact Hw|]. split; [exact Hs|].
  exact (Hf (direct (wait opts)) [] eq_refl).
Defined.

End Baton.
